(** * Generation queue and job lifecycle of the image studio front-end

    A shallow embedding of the application component (src/unnamed/part_000,
    first document), of the two copies of the image service
    (src/unnamed/part_000, second document, and src/unnamed/part_001), of the
    reference image panel (src/unnamed/part_002) and of the submit handler of
    src/components/GenerationPanel.tsx.

    Conventions of the embedding:
    - a JavaScript string is a [string]; its characters stand for code units
      in the range 0..255;
    - React state is a record, a functional updater [setX(prev => f prev)]
      is the function [f] applied to the current field;
    - an [async] function is cut at its [await]: the part before it runs when
      the function is called, the part after it runs when the awaited promise
      settles; the settled value is an argument of the second part;
    - [crypto.randomUUID()], the construction of the provider client, the
      provider and [FileReader] are inputs. *)

From Stdlib Require Import ZArith Ascii.
From stdpp Require Import base list strings.

(** ** Data model (part_000, lines 14-27 and 167) *)

Inductive AspectRatio := AR_1_1 | AR_16_9 | AR_9_16 | AR_4_3 | AR_3_4.

Inductive JobStatus := pending | processing | completed | failed.

#[global] Instance JobStatus_eq_dec : EqDecision JobStatus.
Proof. solve_decision. Defined.

#[global] Instance AspectRatio_eq_dec : EqDecision AspectRatio.
Proof. solve_decision. Defined.

Module Job.
Record t := mk {
  id : string;
  prompt : string;
  referenceImages : list string;
  aspectRatio : AspectRatio;
  status : JobStatus;
  error : option string
}.

(** [{ ...j, status: s }] *)
Definition with_status (s : JobStatus) (j : t) : t :=
  mk (id j) (prompt j) (referenceImages j) (aspectRatio j) s (error j).

(** [{ ...j, status: s, error: e }] *)
Definition with_status_error (s : JobStatus) (e : string) (j : t) : t :=
  mk (id j) (prompt j) (referenceImages j) (aspectRatio j) s (Some e).
End Job.

Module GalleryItem.
Record t := mk {
  id : string;
  src : string;
  prompt : string
}.

(** [{ ...item, src: newSrc }] *)
Definition with_src (newSrc : string) (item : t) : t :=
  mk (id item) newSrc (prompt item).
End GalleryItem.

(** A value that a [throw] or a rejected promise carries.  An [Error] object
    has a message; the errors of the provider SDK may also carry
    [response.promptFeedback.blockReason]. *)
Inductive thrown :=
| ErrorObj (message : string) (blockReason : option string)
| NonError.

(** A settled promise, or the completion of a block that may throw. *)
Inductive settled (A : Type) :=
| Fulfilled (v : A)
| Rejected (e : thrown).
Arguments Fulfilled {A} v.
Arguments Rejected {A} e.

(** ** Application state (part_000, lines 30-34) *)

Record AppState := mkApp {
  referenceImages : list string;
  queue : list Job.t;
  gallery : list GalleryItem.t;
  selectedImage : option GalleryItem.t;
  isProcessingRef : bool
}.

Definition setReferenceImages (v : list string) (st : AppState) : AppState :=
  mkApp v (queue st) (gallery st) (selectedImage st) (isProcessingRef st).

Definition setQueue (f : list Job.t → list Job.t) (st : AppState) : AppState :=
  mkApp (referenceImages st) (f (queue st)) (gallery st) (selectedImage st)
        (isProcessingRef st).

Definition setGallery (f : list GalleryItem.t → list GalleryItem.t)
    (st : AppState) : AppState :=
  mkApp (referenceImages st) (queue st) (f (gallery st)) (selectedImage st)
        (isProcessingRef st).

Definition setSelectedImage (f : option GalleryItem.t → option GalleryItem.t)
    (st : AppState) : AppState :=
  mkApp (referenceImages st) (queue st) (gallery st) (f (selectedImage st))
        (isProcessingRef st).

Definition setIsProcessing (b : bool) (st : AppState) : AppState :=
  mkApp (referenceImages st) (queue st) (gallery st) (selectedImage st) b.

(** The state of the first render: every [useState] initial value. *)
Definition initialApp : AppState := mkApp [] [] [] None false.

(** ** Queue updaters (part_000, lines 65, 80, 90 and 94) *)

(** [j => j.id === id ? f(j) : j], the callback of the two [map] updaters. *)
Definition byId (id : string) (f : Job.t → Job.t) (j : Job.t) : Job.t :=
  if decide (Job.id j = id) then f j else j.

(** [prev => [...prev, newJob]] *)
Definition appendJob (newJob : Job.t) (prev : list Job.t) : list Job.t :=
  prev ++ [newJob].

(** [prev => prev.map(j => j.id === id ? { ...j, status: 'processing' } : j)] *)
Definition markProcessing (id : string) (prev : list Job.t) : list Job.t :=
  byId id (Job.with_status processing) <$> prev.

(** [prev => prev.filter(j => j.id !== id)] *)
Definition markCompleted (id : string) (prev : list Job.t) : list Job.t :=
  filter (λ j, Job.id j ≠ id) prev.

(** [prev => prev.map(j => j.id === id
       ? { ...j, status: 'failed', error: errorMessage } : j)] *)
Definition markFailed (id : string) (errorMessage : string)
    (prev : list Job.t) : list Job.t :=
  byId id (Job.with_status_error failed errorMessage) <$> prev.

(** [queue.find(j => j.status === 'pending')] *)
Definition nextPending (q : list Job.t) : option Job.t :=
  snd <$> list_find (λ j, Job.status j = pending) q.

(** ** handleAddToQueue (part_000, lines 56-67)

    [uuid] is the value of [crypto.randomUUID()]. *)
Definition handleAddToQueue (prompt : string) (aspectRatio : AspectRatio)
    (uuid : string) (st : AppState) : AppState :=
  let newJob :=
    Job.mk uuid prompt (referenceImages st) aspectRatio pending None in
  setReferenceImages [] (setQueue (appendJob newJob) st).

(** ** Effects: state with exceptions

    The body of [processQueue] after its [await] runs state updates inside
    [try { ... } catch (error) { ... } finally { ... }].  A computation takes
    the application state and completes normally or abruptly. *)

Definition Eff (A : Type) : Type := AppState → settled A * AppState.

#[global] Instance Eff_ret : MRet Eff := λ A (v : A) st, (Fulfilled v, st).

#[global] Instance Eff_bind : MBind Eff := λ A B (k : A → Eff B) (m : Eff A) st,
  match m st with
  | (Fulfilled v, st1) => k v st1
  | (Rejected e, st1) => (Rejected e, st1)
  end.

(** The value of an awaited promise, or of a call that may throw. *)
Definition resume {A : Type} (r : settled A) : Eff A := λ st, (r, st).

(** A state setter. *)
Definition update (f : AppState → AppState) : Eff unit :=
  λ st, (Fulfilled tt, f st).

(** [try { m } catch (error) { h error }] *)
Definition try_catch {A : Type} (m : Eff A) (h : thrown → Eff A) : Eff A :=
  λ st,
    match m st with
    | (Fulfilled v, st1) => (Fulfilled v, st1)
    | (Rejected e, st1) => h e st1
    end.

(** [try { m } finally { f }]: [f] always runs; the completion is that of
    [m] unless [f] itself completes abruptly. *)
Definition try_finally {A : Type} (m : Eff A) (f : Eff unit) : Eff A :=
  λ st,
    match m st with
    | (r, st1) =>
        match f st1 with
        | (Fulfilled _, st2) => (r, st2)
        | (Rejected e, st2) => (Rejected e, st2)
        end
    end.

(** ** processQueue (part_000, lines 69-98) *)

(** Lines 70-80: the guard, the selection of the job and the claim of the
    busy flag, up to the call of the provider.  The second component is the
    job handed to [generateImage], if any.  The callback is rebuilt whenever
    [queue] changes (line 98), so the [queue] it reads is the one of the
    latest render; every update is taken to be rendered before the next
    event, and that queue is the current one. *)
Definition processQueue_start (st : AppState) : AppState * option Job.t :=
  if isProcessingRef st || bool_decide (length (queue st) = 0) then (st, None)
  else
    match nextPending (queue st) with
    | None => (st, None)
    | Some job =>
        (setQueue (markProcessing (Job.id job)) (setIsProcessing true st),
         Some job)
    end.

(** [error instanceof Error ? error.message : 'Unknown error'] *)
Definition errorMessageOf (error : thrown) : string :=
  match error with
  | ErrorObj message _ => message
  | NonError => "Unknown error"
  end.

(** Lines 82-97: what runs once [generateImage] has settled with [outcome];
    [uuid] is the completion of [crypto.randomUUID()] (line 85). *)
Definition processQueue_settle (job : Job.t) (outcome : settled string)
    (uuid : settled string) : Eff unit :=
  try_finally
    (try_catch
       (imageUrl ← resume outcome;
        newId ← resume uuid;
        let newGalleryItem :=
          GalleryItem.mk newId imageUrl (Job.prompt job) in
        update (setGallery (λ prev, newGalleryItem :: prev));;
        update (setQueue (markCompleted (Job.id job))))
       (λ error,
          let errorMessage := errorMessageOf error in
          update (setQueue (markFailed (Job.id job) errorMessage))))
    (update (setIsProcessing false)).

(** ** handleUpscaleImage (part_000, lines 116-129) *)
Definition handleUpscaleImage (itemId newSrc : string) (st : AppState)
    : AppState :=
  let st1 :=
    setGallery (λ prevGallery,
      (λ item, if decide (GalleryItem.id item = itemId)
               then GalleryItem.with_src newSrc item else item)
        <$> prevGallery) st in
  setSelectedImage (λ prevSelected,
    match prevSelected with
    | Some sel =>
        if decide (GalleryItem.id sel = itemId)
        then Some (GalleryItem.with_src newSrc sel) else prevSelected
    | None => prevSelected
    end) st1.

(** [handleSelectImage] and [handleCloseModal] (lines 108-114). *)
Definition handleSelectImage (item : GalleryItem.t) : AppState → AppState :=
  setSelectedImage (λ _, Some item).

Definition handleCloseModal : AppState → AppState :=
  setSelectedImage (λ _, None).

(** ** ReferenceImagePanel (part_002) *)

Definition MAX_IMAGES : Z := 4.

(** [Array.prototype.slice(0, end)]: a negative [end] counts from the end
    of the array. *)
Definition slice0 {A : Type} (end_ : Z) (l : list A) : list A :=
  let len := Z.of_nat (length l) in
  let k := if (end_ <? 0)%Z then Z.max (len + end_) 0 else Z.min end_ len in
  take (Z.to_nat k) l.

(** A selected file, given by what [FileReader.readAsDataURL] yields for it:
    [onload] resolves the promise with the data URL, [onerror] rejects it. *)
Definition File : Type := settled string.

(** [Promise.all]: the values in order, or a rejection if a promise rejects. *)
Fixpoint promise_all {A : Type} (ps : list (settled A)) : settled (list A) :=
  match ps with
  | [] => Fulfilled []
  | Fulfilled v :: ps' =>
      match promise_all ps' with
      | Fulfilled vs => Fulfilled (v :: vs)
      | Rejected e => Rejected e
      end
  | Rejected e :: _ => Rejected e
  end.

(** [handleImageUpload] (lines 17-37).  [images] is the prop of the render
    in which the event fired; [targetFiles] is [e.target.files] ([None] for
    [null]).  The result is the argument of the [onImagesChange] call, if
    the call is made. *)
Definition handleImageUpload (images : list string)
    (targetFiles : option (list File)) : option (list string) :=
  match targetFiles with
  | None => None
  | Some fs =>
      let files := slice0 (MAX_IMAGES - Z.of_nat (length images)) fs in
      match promise_all files with
      | Fulfilled newImages => Some (images ++ newImages)
      | Rejected _ => None
      end
  end.

(** [handleRemoveImage] (lines 39-41):
    [images.filter((_, i) => i !== index)]. *)
Definition handleRemoveImage (images : list string) (index : nat)
    : list string :=
  snd <$> filter (λ p, p.1 ≠ index) (imap pair images).

(** ** GenerationPanel: handleSubmit (GenerationPanel.tsx, lines 24-41) *)

(** White space and line terminators of the language, among the code units
    below 256: TAB, LF, VT, FF, CR, SP and NBSP. *)
Definition isWhiteSpace (c : ascii) : bool :=
  match c with
  | "009" | "010" | "011" | "012" | "013" | " " | "160" => true
  | _ => false
  end%char.

Fixpoint trimStart (s : string) : string :=
  match s with
  | String c s' => if isWhiteSpace c then trimStart s' else s
  | EmptyString => EmptyString
  end.

Definition trimEnd (s : string) : string :=
  String.rev (trimStart (String.rev s)).

(** [String.prototype.trim] *)
Definition trim (s : string) : string := trimEnd (trimStart s).

(** Truthiness of a string: every string but the empty one. *)
Definition truthy (s : string) : bool :=
  match s with
  | EmptyString => false
  | String _ _ => true
  end.

Record FormState := mkForm {
  prompt : string;
  aspectRatio : AspectRatio;
  isAdding : bool
}.

(** [handleSubmit], with [onAddToQueue] bound to [handleAddToQueue] as in
    part_000, line 142.  [uuid] is the completion of [crypto.randomUUID()]
    inside it: if that call throws, the promise of [onAddToQueue] rejects
    and the [catch] block only logs. *)
Definition handleSubmit (form : FormState) (uuid : settled string)
    (app : AppState) : FormState * AppState :=
  if truthy (trim (prompt form)) && negb (isAdding form) then
    match uuid with
    | Fulfilled u =>
        (mkForm EmptyString (aspectRatio form) false,
         handleAddToQueue (prompt form) (aspectRatio form) u app)
    | Rejected _ =>
        (mkForm (prompt form) (aspectRatio form) false, app)
    end
  else (form, app).

(** ** The image service (part_000, second document, and part_001) *)

#[global] Instance settled_ret : MRet settled := λ A (v : A), Fulfilled v.

#[global] Instance settled_bind : MBind settled :=
  λ A B (k : A → settled B) (m : settled A),
    match m with
    | Fulfilled v => k v
    | Rejected e => Rejected e
    end.

(** A part of a request or of a response: [{ inlineData: { mimeType, data } }]
    or [{ text }]. *)
Inductive Part :=
| InlineData (mimeType data : string)
| Text (text : string).

Inductive Modality := IMAGE | TEXT.

(** The argument of [ai.models.generateContent]. *)
Record ContentRequest := mkContentRequest {
  content_model : string;
  content_parts : list Part;
  responseModalities : list Modality
}.

(** The argument of [ai.models.generateImages]. *)
Record ImagesRequest := mkImagesRequest {
  images_model : string;
  images_prompt : string;
  numberOfImages : nat;
  outputMimeType : string;
  images_aspectRatio : AspectRatio
}.

(** What the service reads of a response:
    [response.candidates?.[0]?.content?.parts] and
    [response.generatedImages?.[0]?.image?.imageBytes]. *)
Record ContentResponse := mkContentResponse {
  firstCandidateParts : option (list Part)
}.

Record ImagesResponse := mkImagesResponse {
  firstImageBytes : option string
}.

(** The provider, [ai.models]: each call settles with a response or with a
    rejection. *)
Record Models := mkModels {
  generateContent : ContentRequest → settled ContentResponse;
  generateImages : ImagesRequest → settled ImagesResponse
}.

Definition isLineTerminator (c : ascii) : bool :=
  match c with
  | "010" | "013" => true
  | _ => false
  end%char.

Fixpoint hasLineTerminator (s : string) : bool :=
  match s with
  | EmptyString => false
  | String c s' => isLineTerminator c || hasLineTerminator s'
  end.

Fixpoint dropChars (n : nat) (s : string) : string :=
  match n, s with
  | S n', String _ s' => dropChars n' s'
  | _, _ => s
  end.

(** The split of [s] around the last [";base64,"] that leaves a non-empty
    right part: the choice of the greedy first group of the pattern. *)
Fixpoint lastBase64Split (s : string) : option (string * string) :=
  match s with
  | EmptyString => None
  | String c s' =>
      match lastBase64Split s' with
      | Some (m, d) => Some (String c m, d)
      | None =>
          if String.prefix ";base64," s && truthy (dropChars 8 s)
          then Some (EmptyString, dropChars 8 s)
          else None
      end
  end.

(** [base64.match(/^data:(.+);base64,(.+)$/)]: the two groups.  The dot
    matches no line terminator and [$] is the end of the input, so no
    line terminator may follow ["data:"]. *)
Definition matchDataUrl (base64 : string) : option (string * string) :=
  if String.prefix "data:" base64 then
    let rest := dropChars 5 base64 in
    if hasLineTerminator rest then None
    else
      match lastBase64Split rest with
      | Some (mimeType, data) =>
          if truthy mimeType then Some (mimeType, data) else None
      | None => None
      end
  else None.

(** [fileToGenerativePart] (part_000, lines 174-187; part_001, lines 15-28) *)
Definition fileToGenerativePart (base64 : string) : settled Part :=
  match matchDataUrl base64 with
  | None => Rejected (ErrorObj "Invalid base64 string format" None)
  | Some (mimeType, data) => Fulfilled (InlineData mimeType data)
  end.

(** [array.map(f)] for an [f] that may throw: the first exception ends it. *)
Fixpoint mapThrowing {A B : Type} (f : A → settled B) (l : list A)
    : settled (list B) :=
  match l with
  | [] => Fulfilled []
  | x :: l' => y ← f x; ys ← mapThrowing f l'; mret (y :: ys)
  end.

(** The [catch] block of [generateImage]: whatever was thrown is thrown
    again as a plain [Error] with the message chosen here. *)
Definition rethrow {A : Type} (r : settled A) : settled A :=
  match r with
  | Fulfilled v => Fulfilled v
  | Rejected error =>
      let errorMessage :=
        match error with
        | ErrorObj message (Some blockReason) =>
            if truthy blockReason
            then "Request blocked: " +:+ blockReason +:+ "."
            else message
        | ErrorObj message None => message
        | NonError => "An unknown error occurred during image generation."
        end in
      Rejected (ErrorObj errorMessage None)
  end.

(** [part.inlineData] as a condition. *)
Definition hasInlineData (part : Part) : bool :=
  match part with
  | InlineData _ _ => true
  | Text _ => false
  end.

(** [response.candidates?.[0]?.content?.parts?.find(part => part.inlineData)]
    and the data URL built from it. *)
Definition imageOfContent (response : ContentResponse) : settled string :=
  let imagePart :=
    match firstCandidateParts response with
    | Some parts => snd <$> list_find (λ p, hasInlineData p = true) parts
    | None => None
    end in
  match imagePart with
  | Some (InlineData mimeType base64ImageBytes) =>
      Fulfilled ("data:" +:+ mimeType +:+ ";base64," +:+ base64ImageBytes)
  | _ =>
      Rejected (ErrorObj
        "Image generation failed: No image data received from multimodal API."
        None)
  end.

Definition imageOfImages (response : ImagesResponse) : settled string :=
  match firstImageBytes response with
  | Some base64ImageBytes =>
      if truthy base64ImageBytes
      then Fulfilled ("data:image/png;base64," +:+ base64ImageBytes)
      else Rejected (ErrorObj
             "Image generation failed: No image data received from API." None)
  | None =>
      Rejected (ErrorObj
        "Image generation failed: No image data received from API." None)
  end.

(** The text-to-image branch, the same in both copies. *)
Definition textToImage (ai : Models) (prompt : string)
    (aspectRatio : AspectRatio) : settled string :=
  response ← generateImages ai
    (mkImagesRequest "imagen-4.0-generate-001" prompt 1 "image/png"
       aspectRatio);
  imageOfImages response.

(** The request of the multimodal branch for given [parts]. *)
Definition multimodalRequest (parts : list Part) : ContentRequest :=
  mkContentRequest "gemini-2.5-flash-image-preview" parts [IMAGE; TEXT].

(** The copy of the service that is bundled with the application component
    (part_000, lines 198-273). *)
Module Part_000.

(** Lines 214-217: [referenceImages[0]] and the prompt.  Reading index 0
    of an empty array yields [undefined], whose [match] is a TypeError;
    the guard of line 208 excludes it. *)
Definition multimodalParts (prompt : string) (referenceImages : list string)
    : settled (list Part) :=
  first ← match referenceImages !! 0 with
          | Some base64 => fileToGenerativePart base64
          | None =>
              Rejected (ErrorObj
                "Cannot read properties of undefined (reading 'match')" None)
          end;
  mret [first; Text prompt].

(** [client] is the completion of [new GoogleGenAI({ apiKey })], which runs
    before the [try]: what it throws rejects the promise as it is, past the
    [catch] block. *)
Definition generateImage (client : settled Models) (prompt : string)
    (aspectRatio : AspectRatio) (referenceImages : list string)
    : settled string :=
  ai ← client;
  rethrow
    (if bool_decide (0 < length referenceImages) then
       parts ← multimodalParts prompt referenceImages;
       response ← generateContent ai (multimodalRequest parts);
       imageOfContent response
     else textToImage ai prompt aspectRatio).

End Part_000.

(** The other copy of the service (part_001, lines 39-110). *)
Module Part_001.

(** Lines 50-53: [[...referenceImages.map(fileToGenerativePart),
    { text: prompt }]]. *)
Definition multimodalParts (prompt : string) (referenceImages : list string)
    : settled (list Part) :=
  images ← mapThrowing fileToGenerativePart referenceImages;
  mret (images ++ [Text prompt]).

(** [client] is the completion of [new GoogleGenAI({ apiKey })], which runs
    before the [try]: what it throws rejects the promise as it is, past the
    [catch] block. *)
Definition generateImage (client : settled Models) (prompt : string)
    (aspectRatio : AspectRatio) (referenceImages : list string)
    : settled string :=
  ai ← client;
  rethrow
    (if bool_decide (0 < length referenceImages) then
       parts ← multimodalParts prompt referenceImages;
       response ← generateContent ai (multimodalRequest parts);
       imageOfContent response
     else textToImage ai prompt aspectRatio).

End Part_001.

(** ** The running application

    Besides the React state, a running application holds the calls that are
    suspended at an [await]: the [processQueue] calls waiting for the
    provider, each with the [job] of its closure, and the
    [handleImageUpload] calls waiting for the file readers, each with the
    array it is about to hand to [onImagesChange]. *)

Record System := mkSystem {
  app : AppState;
  inflight : list Job.t;
  uploads : list (list string)
}.

Definition initial : System := mkSystem initialApp [] [].

Inductive event :=
| ELoadGallery (saved : list GalleryItem.t)
    (* mount effect, lines 37-44: [setGallery(JSON.parse(savedGallery))] *)
| EAddToQueue (prompt : string) (aspectRatio : AspectRatio) (uuid : string)
| ETick
    (* the interval callback, lines 100-106: [processQueue()] up to its await *)
| ESettle (k : nat) (outcome : settled string) (uuid : settled string)
    (* the provider call of the k-th suspended [processQueue] settles *)
| EUpscale (itemId newSrc : string)
| ESelectImage (item : GalleryItem.t)
| ECloseModal
| EUploadStart (targetFiles : option (list File))
| EUploadDone (k : nat)
    (* the readers of the k-th suspended upload are done *)
| ERemoveImage (index : nat).

Definition exec (e : event) (s : System) : System :=
  match e with
  | ELoadGallery saved =>
      mkSystem (setGallery (λ _, saved) (app s)) (inflight s) (uploads s)
  | EAddToQueue prompt aspectRatio uuid =>
      mkSystem (handleAddToQueue prompt aspectRatio uuid (app s))
               (inflight s) (uploads s)
  | ETick =>
      let '(st, started) := processQueue_start (app s) in
      mkSystem st (inflight s ++ option_list started) (uploads s)
  | ESettle k outcome uuid =>
      match inflight s !! k with
      | Some job =>
          mkSystem (processQueue_settle job outcome uuid (app s)).2
                   (delete k (inflight s)) (uploads s)
      | None => s
      end
  | EUpscale itemId newSrc =>
      mkSystem (handleUpscaleImage itemId newSrc (app s))
               (inflight s) (uploads s)
  | ESelectImage item =>
      mkSystem (handleSelectImage item (app s)) (inflight s) (uploads s)
  | ECloseModal =>
      mkSystem (handleCloseModal (app s)) (inflight s) (uploads s)
  | EUploadStart targetFiles =>
      mkSystem (app s) (inflight s)
        (uploads s ++
         option_list (handleImageUpload (referenceImages (app s)) targetFiles))
  | EUploadDone k =>
      match uploads s !! k with
      | Some images =>
          mkSystem (setReferenceImages images (app s)) (inflight s)
                   (delete k (uploads s))
      | None => s
      end
  | ERemoveImage index =>
      mkSystem
        (setReferenceImages
           (handleRemoveImage (referenceImages (app s)) index) (app s))
        (inflight s) (uploads s)
  end.

(** An event can happen in a state: a fresh identifier is not the one of a
    queued job, and only a suspended call can resume. *)
Definition enabled (s : System) (e : event) : Prop :=
  match e with
  | EAddToQueue _ _ uuid => uuid ∉ Job.id <$> queue (app s)
  | ESettle k _ _ => is_Some (inflight s !! k)
  | EUploadDone k => is_Some (uploads s !! k)
  | _ => True
  end.

Fixpoint run (tr : list event) (s : System) : System :=
  match tr with
  | [] => s
  | e :: tr' => run tr' (exec e s)
  end.

Fixpoint admissible (tr : list event) (s : System) : Prop :=
  match tr with
  | [] => True
  | e :: tr' => enabled s e ∧ admissible tr' (exec e s)
  end.

(** The identifiers handed to [handleAddToQueue] along a run, in order. *)
Definition submitted (tr : list event) : list string :=
  omap (λ e, match e with EAddToQueue _ _ uuid => Some uuid | _ => None end) tr.

Definition processingCount (q : list Job.t) : nat :=
  length (filter (λ j, Job.status j = processing) q).

(** ** Invariants and observations of a run *)

(** The identifiers of the pending entries of a queue, in queue order. *)
Definition pendingIds (q : list Job.t) : list string :=
  Job.id <$> filter (λ j, Job.status j = pending) q.

(** The identifier of the job that a tick in state [s] hands to the
    provider, if it starts one. *)
Definition startedBy (e : event) (s : System) : list string :=
  match e with
  | ETick => Job.id <$> option_list (processQueue_start (app s)).2
  | _ => []
  end.

(** The identifiers of the jobs started along a run, in order. *)
Fixpoint started (tr : list event) (s : System) : list string :=
  match tr with
  | [] => []
  | e :: tr' => startedBy e s ++ started tr' (exec e s)
  end.

Definition notProcessing (j : Job.t) : Prop := Job.status j ≠ processing.

(** While the busy flag is down no call is suspended and no entry is
    processing; while it is up exactly one call is suspended, and the entry
    of its job is the only processing one. *)
Definition flightInv (s : System) : Prop :=
  if isProcessingRef (app s) then
    ∃ job pre post,
      inflight s = [job] ∧
      queue (app s) = pre ++ Job.with_status processing job :: post ∧
      Job.status job = pending ∧
      Forall notProcessing pre ∧ Forall notProcessing post
  else
    inflight s = [] ∧ Forall notProcessing (queue (app s)).

Record Inv (s : System) : Prop := mkInv {
  inv_nodup : NoDup (Job.id <$> queue (app s));
  inv_flight : flightInv s
}.

(** The staged images and the arrays on their way to [onImagesChange] have
    at most four entries. *)
Definition stagingInv (s : System) : Prop :=
  length (referenceImages (app s)) ≤ 4 ∧
  Forall (λ images, length images ≤ 4) (uploads s).

(** Two submissions followed by a tick. *)
Definition two_jobs_one_tick : list event :=
  [EAddToQueue "A red balloon" AR_1_1 "job-1";
   EAddToQueue "A blue kite" AR_16_9 "job-2";
   ETick].

(** ** The rest of the image service and of the components *)

(** [s] holds the character [c]. *)
Fixpoint hasChar (c : ascii) (s : string) : bool :=
  match s with
  | EmptyString => false
  | String c' s' => bool_decide (c' = c) || hasChar c s'
  end.

(** The instruction that [upscaleImage] sends with the image
    (part_000, line 287). *)
Definition upscaleInstruction : string :=
  "Please upscale this image to 4x its original resolution. Focus on enhancing details and clarity without adding, removing, or changing any elements in the original image.".

(** The output of [upscaleImage] read off a response (part_000, lines
    298-309). *)
Definition upscaledOfContent (response : ContentResponse) : settled string :=
  let outputImagePart :=
    match firstCandidateParts response with
    | Some parts => snd <$> list_find (λ p, hasInlineData p = true) parts
    | None => None
    end in
  match outputImagePart with
  | Some (InlineData mimeType base64ImageBytes) =>
      Fulfilled ("data:" +:+ mimeType +:+ ";base64," +:+ base64ImageBytes)
  | _ =>
      Rejected (ErrorObj
        "Upscaling failed: No image data received from API." None)
  end.

(** The [catch] block of [upscaleImage] (part_000, lines 310-321). *)
Definition rethrowUpscale {A : Type} (r : settled A) : settled A :=
  match r with
  | Fulfilled v => Fulfilled v
  | Rejected error =>
      let errorMessage :=
        match error with
        | ErrorObj message (Some blockReason) =>
            if truthy blockReason
            then "Request blocked: " +:+ blockReason +:+ "."
            else message
        | ErrorObj message None => message
        | NonError => "An unknown error occurred during image upscaling."
        end in
      Rejected (ErrorObj errorMessage None)
  end.

(** [upscaleImage] (part_000, lines 280-322).  [client] is the completion
    of [new GoogleGenAI({ apiKey })] (line 282), before the [try]. *)
Definition upscaleImage (client : settled Models) (base64Image : string)
    : settled string :=
  ai ← client;
  rethrowUpscale
    (imagePart ← fileToGenerativePart base64Image;
     let textPart := Text upscaleInstruction in
     response ← generateContent ai (multimodalRequest [imagePart; textPart]);
     upscaledOfContent response).

(** The state of [ImageDetailModal] (ImageDetailModal.tsx, lines 19-20). *)
Record ModalState := mkModal {
  isUpscaling : bool;
  modalError : option string
}.

(** [handleUpscaleClick] (ImageDetailModal.tsx, lines 43-56) up to its
    [await]: lines 44-45. *)
Definition handleUpscaleClick_start (m : ModalState) : ModalState :=
  mkModal true None.

(** Lines 47-55, once [upscaleImage(item.src)] has settled with [outcome];
    [onUpscale] is bound to [handleUpscaleImage] (part_000, line 155). *)
Definition handleUpscaleClick_settle (item : GalleryItem.t)
    (outcome : settled string) (m : ModalState) (st : AppState)
    : ModalState * AppState :=
  match outcome with
  | Fulfilled upscaledSrc =>
      (mkModal false (modalError m),
       handleUpscaleImage (GalleryItem.id item) upscaledSrc st)
  | Rejected e =>
      let errorMessage :=
        match e with
        | ErrorObj message _ => message
        | NonError => "An unknown error occurred."
        end in
      (mkModal false (Some ("Upscale failed: " +:+ errorMessage)), st)
  end.

(** A click on the upscale button with nothing happening in between. *)
Definition handleUpscaleClick (client : settled Models) (item : GalleryItem.t)
    (m : ModalState) (st : AppState) : ModalState * AppState :=
  handleUpscaleClick_settle item (upscaleImage client (GalleryItem.src item))
    (handleUpscaleClick_start m) st.

(** The props of [Header] (part_000, line 133). *)
Definition queueSize (st : AppState) : nat := length (queue st).

Definition headerIsProcessing (st : AppState) : bool :=
  isProcessingRef st ||
  existsb (λ j, bool_decide (Job.status j = processing)) (queue st).

(** A call of [processQueue] with nothing happening while the provider
    works: the job of the tick goes to [generateImage] of part_000 (line 83)
    and the continuation runs on its outcome. *)
Definition processQueue (client : settled Models) (uuid : settled string)
    (st : AppState) : AppState :=
  match processQueue_start st with
  | (st1, Some job) =>
      (processQueue_settle job
         (Part_000.generateImage client (Job.prompt job) (Job.aspectRatio job)
            (Job.referenceImages job))
         uuid st1).2
  | (st1, None) => st1
  end.

(** What of a job never changes once it is queued. *)
Definition jobCore (j : Job.t)
    : string * string * list string * AspectRatio :=
  (Job.id j, Job.prompt j, Job.referenceImages j, Job.aspectRatio j).

(** What of a gallery item an upscale leaves alone. *)
Definition itemCore (item : GalleryItem.t) : string * string :=
  (GalleryItem.id item, GalleryItem.prompt item).

(** The record of a job is coherent: it is pending or processing without an
    error, or failed with one, and it carries at most four images. *)
Definition wellFormedJob (j : Job.t) : Prop :=
  match Job.status j with
  | pending | processing => Job.error j = None
  | failed => is_Some (Job.error j)
  | completed => False
  end ∧ length (Job.referenceImages j) ≤ 4.

(** The number of jobs moved to the gallery along a run: the settlements
    in which the provider call returned an image and
    [crypto.randomUUID()] returned the identifier of the new item. *)
Fixpoint completions (tr : list event) (s : System) : nat :=
  match tr with
  | [] => 0
  | e :: tr' =>
      match e with
      | ESettle _ (Fulfilled _) (Fulfilled _) => 1
      | _ => 0
      end + completions tr' (exec e s)
  end.

(** ** Providers and states of the examples *)

(** A provider whose text-to-image call returns [bytes] and whose
    multimodal call is rejected. *)
Definition pngProvider (bytes : string) : Models :=
  mkModels (λ _, Rejected NonError)
           (λ _, Fulfilled (mkImagesResponse (Some bytes))).

(** A provider whose calls are all rejected with [e]. *)
Definition failingProvider (e : thrown) : Models :=
  mkModels (λ _, Rejected e) (λ _, Rejected e).

(** A provider whose multimodal call returns the parts [parts]. *)
Definition contentProvider (parts : list Part) : Models :=
  mkModels (λ _, Fulfilled (mkContentResponse (Some parts)))
           (λ _, Rejected NonError).

(** Every character of [s] is white space: [s.trim()] is empty. *)
Fixpoint isBlank (s : string) : bool :=
  match s with
  | EmptyString => true
  | String c s' => isWhiteSpace c && isBlank s'
  end.

(** What the jobs submitted along a run carry, in order: the identifier,
    the prompt, the images staged at that moment and the aspect ratio. *)
Fixpoint submittedCores (tr : list event) (s : System)
    : list (string * string * list string * AspectRatio) :=
  match tr with
  | [] => []
  | e :: tr' =>
      match e with
      | EAddToQueue prompt aspectRatio uuid =>
          [(uuid, prompt, referenceImages (app s), aspectRatio)]
      | _ => []
      end ++ submittedCores tr' (exec e s)
  end.

(** An upload of [newImages] whose readers are done before anything else
    happens: [handleImageUpload] is called in state [s] and its call of
    [onImagesChange], the last one suspended, resumes at once. *)
Definition uploadNow (newImages : list string) (s : System) : System :=
  exec (EUploadDone (length (uploads s)))
    (exec (EUploadStart (Some (Fulfilled <$> newImages))) s).

(** The event is not the load of the saved gallery. *)
Definition notLoad (e : event) : Prop :=
  match e with
  | ELoadGallery _ => False
  | _ => True
  end.

(** * Properties *)

(** ** The data URL pattern and [trim] on examples *)

Example matchDataUrl_png :
  matchDataUrl "data:image/png;base64,iVBORw0KGgo=" =
  Some ("image/png", "iVBORw0KGgo=").
Proof. reflexivity. Qed.

Example matchDataUrl_greedy :
  matchDataUrl "data:a;base64,b;base64,c" = Some ("a;base64,b", "c").
Proof. reflexivity. Qed.

Example matchDataUrl_no_payload : matchDataUrl "data:image/png;base64," = None.
Proof. reflexivity. Qed.

Example trim_blank :
  trim (String " " (String "009" (String "010" (String "160" " ")))) =
  EmptyString.
Proof. reflexivity. Qed.

Example trim_inner : trim "  a red  balloon " = "a red  balloon".
Proof. reflexivity. Qed.

(** ** Runs of the application on examples *)

(** A job is enqueued, started by a tick and completed by the provider. *)
Example run_success :
  run [EAddToQueue "A red balloon" AR_1_1 "job-1";
       ETick;
       ESettle 0 (Fulfilled "data:image/png;base64,AAAA") (Fulfilled "item-1")]
      initial =
  mkSystem
    (mkApp [] []
       [GalleryItem.mk "item-1" "data:image/png;base64,AAAA" "A red balloon"]
       None false)
    [] [].
Proof. reflexivity. Qed.

(** The first of two jobs fails; the next tick starts the second one. *)
Example run_failure_then_next :
  run [EAddToQueue "A red balloon" AR_1_1 "job-1";
       EAddToQueue "A blue kite" AR_16_9 "job-2";
       ETick;
       ETick;
       ESettle 0 (Rejected (ErrorObj "Request blocked: SAFETY." None))
         (Fulfilled "item-1");
       ETick]
      initial =
  mkSystem
    (mkApp []
       [Job.mk "job-1" "A red balloon" [] AR_1_1 failed
          (Some "Request blocked: SAFETY.");
        Job.mk "job-2" "A blue kite" [] AR_16_9 processing None]
       [] None true)
    [Job.mk "job-2" "A blue kite" [] AR_16_9 pending None] [].
Proof. reflexivity. Qed.

(** Five files are offered to an empty staging area: four are staged, and
    the job enqueued next carries them. *)
Example run_five_uploads :
  app (run [EUploadStart (Some (Fulfilled <$> ["a"; "b"; "c"; "d"; "e"]));
            EUploadDone 0;
            EAddToQueue "A red balloon" AR_1_1 "job-1"]
           initial) =
  mkApp [] [Job.mk "job-1" "A red balloon" ["a"; "b"; "c"; "d"] AR_1_1
              pending None]
        [] None false.
Proof. reflexivity. Qed.

(** The provider of the examples below answers every multimodal request
    with one image whose payload has one [x] per image part it was sent. *)
Example generateImage_all_images :
  Part_001.generateImage
    (Fulfilled (mkModels
       (λ req, Fulfilled (mkContentResponse (Some
          [InlineData "image/png"
             (String.concat EmptyString
                ((λ _, "x") <$> filter (λ p, hasInlineData p = true)
                                  (content_parts req)))])))
       (λ _, Rejected NonError)))
    "merge the two" AR_1_1
    ["data:image/png;base64,AAAA"; "data:image/jpeg;base64,BBBB"] =
  Fulfilled "data:image/png;base64,xx".
Proof. reflexivity. Qed.

Example generateImage_first_image :
  Part_000.generateImage
    (Fulfilled (mkModels
       (λ req, Fulfilled (mkContentResponse (Some
          [InlineData "image/png"
             (String.concat EmptyString
                ((λ _, "x") <$> filter (λ p, hasInlineData p = true)
                                  (content_parts req)))])))
       (λ _, Rejected NonError)))
    "merge the two" AR_1_1
    ["data:image/png;base64,AAAA"; "data:image/jpeg;base64,BBBB"] =
  Fulfilled "data:image/png;base64,x".
Proof. reflexivity. Qed.

Example generateImage_invalid_reference :
  Part_001.generateImage
    (Fulfilled (mkModels (λ _, Rejected NonError) (λ _, Rejected NonError)))
    "merge the two" AR_1_1 ["data:image/png;base64,AAAA"; "not a data url"] =
  Rejected (ErrorObj "Invalid base64 string format" None).
Proof. reflexivity. Qed.


(** ** Updating a queue by identifier *)

Section ById.
Variable i : string.
Variable f : Job.t → Job.t.

Lemma byId_absent (q : list Job.t) :
  i ∉ Job.id <$> q → byId i f <$> q = q.
Proof.
  induction q as [|j q IH]; intros Hni; [done|].
  rewrite fmap_cons in Hni. apply not_elem_of_cons in Hni as [Hne Hni].
  rewrite fmap_cons, IH by done. unfold byId.
  destruct (decide (Job.id j = i)); congruence.
Qed.

Lemma byId_at (pre post : list Job.t) (j : Job.t) :
  Job.id j = i → i ∉ Job.id <$> pre → i ∉ Job.id <$> post →
  byId i f <$> (pre ++ j :: post) = pre ++ f j :: post.
Proof.
  intros Hj Hpre Hpost.
  rewrite fmap_app, fmap_cons, !byId_absent by done.
  unfold byId. by rewrite decide_True.
Qed.

Lemma byId_ids (q : list Job.t) :
  (∀ j, Job.id (f j) = Job.id j) →
  Job.id <$> (byId i f <$> q) = Job.id <$> q.
Proof.
  intros Hf. rewrite <- list_fmap_compose. apply list_fmap_ext.
  intros _ j _. simpl. unfold byId. destruct (decide _); auto.
Qed.
End ById.

Lemma markProcessing_byId (i : string) (q : list Job.t) :
  markProcessing i q = byId i (Job.with_status processing) <$> q.
Proof. reflexivity. Qed.

Lemma markFailed_byId (i m : string) (q : list Job.t) :
  markFailed i m q = byId i (Job.with_status_error failed m) <$> q.
Proof. reflexivity. Qed.

Lemma markCompleted_absent (i : string) (q : list Job.t) :
  i ∉ Job.id <$> q → markCompleted i q = q.
Proof.
  unfold markCompleted. induction q as [|j q IH]; intros Hni; [done|].
  rewrite fmap_cons in Hni. apply not_elem_of_cons in Hni as [Hne Hni].
  rewrite filter_cons_True by congruence. by rewrite IH.
Qed.

Lemma markCompleted_at (pre post : list Job.t) (j : Job.t) :
  Job.id j ∉ Job.id <$> pre → Job.id j ∉ Job.id <$> post →
  markCompleted (Job.id j) (pre ++ j :: post) = pre ++ post.
Proof.
  intros Hpre Hpost.
  pose proof (markCompleted_absent _ _ Hpre) as Epre.
  pose proof (markCompleted_absent _ _ Hpost) as Epost.
  unfold markCompleted in *.
  rewrite filter_app, filter_cons_False by (intros H; by apply H).
  by rewrite Epre, Epost.
Qed.

Lemma markCompleted_sublist (i : string) (q : list Job.t) :
  sublist (markCompleted i q) q.
Proof. apply sublist_filter. Qed.

(** In a queue without duplicate identifiers an entry splits the queue into
    two parts that do not carry its identifier. *)
Lemma NoDup_ids_split (pre post : list Job.t) (j : Job.t) :
  NoDup (Job.id <$> (pre ++ j :: post)) →
  (Job.id j ∉ Job.id <$> pre) ∧ (Job.id j ∉ Job.id <$> post).
Proof.
  rewrite fmap_app, fmap_cons. intros Hnd.
  apply NoDup_app in Hnd as (_ & Hdisj & Htail).
  apply NoDup_cons in Htail as [Hpost _]. split; [|done].
  intros Hin. apply (Hdisj _ Hin). left.
Qed.

(** [queue.find(j => j.status === 'pending')] returns the first pending
    entry in the order of the array. *)
Lemma nextPending_Some (q : list Job.t) (job : Job.t) :
  nextPending q = Some job ↔
  ∃ pre post, q = pre ++ job :: post ∧ Job.status job = pending ∧
              Forall (λ j, Job.status j ≠ pending) pre.
Proof.
  unfold nextPending. split.
  - destruct (list_find _ q) as [[n j]|] eqn:E; [|done].
    simpl. intros [= ->].
    apply list_find_Some in E as (Hn & Hst & Hbefore).
    exists (take n q), (drop (S n) q). split_and!; [|done|].
    + by rewrite <- (take_drop_middle q n job) at 1.
    + apply Forall_forall. intros x Hx.
      apply list_elem_of_lookup in Hx as [k Hk].
      pose proof (lookup_lt_Some _ _ _ Hk) as Hlt.
      rewrite length_take in Hlt.
      rewrite lookup_take_lt in Hk by lia. eapply Hbefore; [done|lia].
  - intros (pre & post & -> & Hst & Hpre).
    assert (list_find (λ j, Job.status j = pending) (pre ++ job :: post)
            = Some (length pre, job)) as ->; [|done].
    apply list_find_Some. split_and!; [|done|].
    + by rewrite list_lookup_middle.
    + intros k y Hk Hlt. rewrite lookup_app_l in Hk by done.
      rewrite Forall_forall in Hpre. apply Hpre.
      apply list_elem_of_lookup. eauto.
Qed.

Lemma nextPending_None (q : list Job.t) :
  nextPending q = None ↔ Forall (λ j, Job.status j ≠ pending) q.
Proof.
  unfold nextPending. destruct (list_find _ q) as [[n j]|] eqn:E; simpl.
  - split; [done|]. intros Hall.
    apply list_find_Some in E as (Hn & Hst & _).
    rewrite Forall_forall in Hall. exfalso. eapply Hall; [|done].
    apply list_elem_of_lookup. eauto.
  - split; [|done]. intros _. by apply list_find_None in E.
Qed.

(** ** The invariant of the queue processor *)

Lemma Inv_initial : Inv initial.
Proof. split; simpl; [constructor|]. by split. Qed.

Lemma pending_notProcessing (j : Job.t) :
  Job.status j = pending → notProcessing j.
Proof. unfold notProcessing. congruence. Qed.

Lemma processQueue_start_busy (st : AppState) :
  isProcessingRef st = true → processQueue_start st = (st, None).
Proof. intros H. unfold processQueue_start. by rewrite H. Qed.

(** The three ways a tick can go. *)
Lemma processQueue_start_cases (st : AppState) :
  processQueue_start st = (st, None) ∨
  ∃ job pre post,
    isProcessingRef st = false ∧
    queue st = pre ++ job :: post ∧
    Job.status job = pending ∧
    Forall (λ j, Job.status j ≠ pending) pre ∧
    processQueue_start st =
      (setQueue (markProcessing (Job.id job)) (setIsProcessing true st),
       Some job).
Proof.
  unfold processQueue_start.
  destruct (isProcessingRef st) eqn:Hbusy; simpl; [by left|].
  case_bool_decide; [by left|].
  destruct (nextPending (queue st)) as [job|] eqn:Hnext; [|by left].
  right. apply nextPending_Some in Hnext as (pre & post & Hq & Hst & Hpre).
  exists job, pre, post. by rewrite Hq.
Qed.

(** The outcome of the continuation in terms of the queue updaters. *)
Lemma processQueue_settle_cases (job : Job.t) (outcome uuid : settled string)
    (st : AppState) :
  (∃ imageUrl newId,
      outcome = Fulfilled imageUrl ∧ uuid = Fulfilled newId ∧
      processQueue_settle job outcome uuid st =
        (Fulfilled tt,
         setIsProcessing false
           (setQueue (markCompleted (Job.id job))
              (setGallery
                 (λ prev, GalleryItem.mk newId imageUrl (Job.prompt job) :: prev)
                 st)))) ∨
  (∃ error,
      (outcome = Rejected error ∨
       ∃ imageUrl, outcome = Fulfilled imageUrl ∧ uuid = Rejected error) ∧
      processQueue_settle job outcome uuid st =
        (Fulfilled tt,
         setIsProcessing false
           (setQueue (markFailed (Job.id job) (errorMessageOf error)) st))).
Proof.
  destruct outcome as [imageUrl|error].
  - destruct uuid as [newId|error].
    + left. by exists imageUrl, newId.
    + right. exists error. split; [right; by exists imageUrl|done].
  - right. exists error. split; [by left|done].
Qed.

Lemma Inv_exec (s : System) (e : event) :
  Inv s → enabled s e → Inv (exec e s).
Proof.
  intros [Hnd Hfl] Hen.
  destruct e as [saved|p ar u| |k outcome uuid|itemId newSrc|item| |fs|k|index];
    simpl in *; try by split.
  - (* EAddToQueue *)
    split; simpl.
    + unfold appendJob. rewrite fmap_app. apply NoDup_app.
      split_and!; [done| |apply NoDup_singleton].
      intros x Hx Hx'. apply list_elem_of_singleton in Hx'. simpl in Hx'.
      by subst.
    + unfold flightInv in *. simpl.
      destruct (isProcessingRef (app s)).
      * destruct Hfl as (job & pre & post & Hin & Hq & Hst & Hpre & Hpost).
        exists job, pre,
          (post ++ [Job.mk u p (referenceImages (app s)) ar pending None]).
        split_and!; try done.
        -- unfold appendJob. rewrite Hq. by rewrite <- app_assoc.
        -- apply Forall_app. split; [done|].
           apply Forall_singleton. by apply pending_notProcessing.
      * destruct Hfl as [Hin Hq]. split; [done|].
        apply Forall_app. split; [done|].
        apply Forall_singleton. by apply pending_notProcessing.
  - (* ETick *)
    destruct (processQueue_start_cases (app s))
      as [->|(job & pre & post & Hidle & Hq & Hst & Hpre & ->)].
    { rewrite app_nil_r. by destruct s. }
    unfold flightInv in Hfl. rewrite Hidle in Hfl. destruct Hfl as [Hin Hall].
    rewrite Hq in Hnd, Hall.
    destruct (NoDup_ids_split _ _ _ Hnd) as [Hnpre Hnpost].
    apply Forall_app in Hall as [Hall1 Hall2].
    apply Forall_cons in Hall2 as [_ Hall2].
    assert (markProcessing (Job.id job) (queue (app s)) =
            pre ++ Job.with_status processing job :: post) as Hmark.
    { rewrite Hq, markProcessing_byId. by apply byId_at. }
    split; simpl.
    + rewrite markProcessing_byId, byId_ids by done. by rewrite Hq.
    + unfold flightInv. simpl. rewrite Hin. simpl.
      exists job, pre, post. by rewrite Hmark.
  - (* ESettle *)
    destruct Hen as [job Hk]. rewrite Hk.
    unfold flightInv in Hfl.
    destruct (isProcessingRef (app s)) eqn:Hbusy;
      [|destruct Hfl as [Hin _]; by rewrite Hin in Hk].
    destruct Hfl as (job' & pre & post & Hin & Hq & Hst & Hpre & Hpost).
    rewrite Hin in Hk |- *.
    destruct k as [|k]; [|done]. injection Hk as ->.
    rewrite Hq in Hnd.
    destruct (NoDup_ids_split _ _ _ Hnd) as [Hnpre Hnpost]. simpl in *.
    destruct (processQueue_settle_cases job outcome uuid (app s))
      as [(imageUrl & newId & _ & _ & ->)|(error & _ & ->)]; simpl.
    + assert (markCompleted (Job.id job) (queue (app s)) = pre ++ post)
        as Hdone.
      { rewrite Hq.
        by apply (markCompleted_at pre post (Job.with_status processing job)). }
      split; simpl.
      * rewrite Hdone. rewrite !fmap_app, fmap_cons in Hnd.
        rewrite fmap_app. apply NoDup_app in Hnd as (H1 & H2 & H3).
        apply NoDup_cons in H3 as [_ H3]. apply NoDup_app. split_and!; try done.
        intros x Hx Hx'. apply (H2 x Hx). by right.
      * unfold flightInv. simpl. split; [done|]. rewrite Hdone.
        apply Forall_app. by split.
    + assert (markFailed (Job.id job) (errorMessageOf error) (queue (app s)) =
              pre ++ Job.with_status_error failed (errorMessageOf error)
                       (Job.with_status processing job) :: post) as Hfail.
      { rewrite Hq, markFailed_byId. by apply byId_at. }
      split; simpl.
      * rewrite markFailed_byId, byId_ids by done. by rewrite Hq.
      * unfold flightInv. simpl. split; [done|]. rewrite Hfail.
        apply Forall_app. split; [done|]. by apply Forall_cons.
  - (* EUploadDone *)
    destruct Hen as [images Hk]. rewrite Hk. by split.
Qed.

Lemma Inv_run (tr : list event) (s : System) :
  Inv s → admissible tr s → Inv (run tr s).
Proof.
  revert s. induction tr as [|e tr IH]; intros s HI Had; [done|].
  destruct Had as [Hen Had]. simpl. apply IH; [by apply Inv_exec|done].
Qed.

(** ** Single flight *)

Lemma filter_processing_none (q : list Job.t) :
  Forall notProcessing q → processingCount q = 0.
Proof.
  unfold processingCount. induction 1 as [|j q Hj _ IH]; [done|].
  by rewrite filter_cons_False.
Qed.

Lemma processingCount_app (q1 q2 : list Job.t) :
  processingCount (q1 ++ q2) = processingCount q1 + processingCount q2.
Proof. unfold processingCount. by rewrite filter_app, length_app. Qed.

Lemma Inv_single_flight (s : System) :
  Inv s → processingCount (queue (app s)) ≤ 1 ∧ length (inflight s) ≤ 1.
Proof.
  intros [_ Hfl]. unfold flightInv in Hfl.
  destruct (isProcessingRef (app s)).
  - destruct Hfl as (job & pre & post & -> & -> & _ & Hpre & Hpost).
    split; [|done].
    rewrite processingCount_app, (filter_processing_none pre) by done.
    change (?x :: post) with ([x] ++ post).
    rewrite processingCount_app, (filter_processing_none post) by done.
    unfold processingCount. rewrite filter_cons_True by done. simpl. lia.
  - destruct Hfl as [-> Hq]. split; [|simpl; lia].
    rewrite filter_processing_none by done. lia.
Qed.

(** While the flag is up, an event other than the settlement of the
    provider call leaves the queue as it is or appends a pending job. *)
Lemma exec_queue_busy (s : System) (e : event) :
  isProcessingRef (app s) = true →
  (∀ k outcome uuid, e ≠ ESettle k outcome uuid) →
  queue (app (exec e s)) = queue (app s) ∨
  ∃ job, Job.status job = pending ∧
         queue (app (exec e s)) = queue (app s) ++ [job].
Proof.
  intros Hbusy Hne. destruct e; simpl; try by left.
  - right. by eexists (Job.mk _ _ _ _ pending None).
  - rewrite processQueue_start_busy by done. by left.
  - by destruct (Hne k outcome uuid).
  - destruct (uploads s !! k); by left.
Qed.

(** C1.  In every state that an interleaving of events can reach from the
    first render, at most one queued job has status [processing] and at
    most one provider call is outstanding.  While a job [j] is processing a
    tick does nothing, and after any event the only entry that can be
    processing is [j] itself: [j] stays in the queue until its provider call
    settles, and no other job is started before that. *)
Theorem single_flight (tr : list event) :
  admissible tr initial →
  processingCount (queue (app (run tr initial))) ≤ 1 ∧
  length (inflight (run tr initial)) ≤ 1 ∧
  ∀ j, j ∈ queue (app (run tr initial)) → Job.status j = processing →
    exec ETick (run tr initial) = run tr initial ∧
    ∀ e, enabled (run tr initial) e →
      (∀ j', j' ∈ queue (app (exec e (run tr initial))) →
             Job.status j' = processing → j' = j) ∧
      (j ∈ queue (app (exec e (run tr initial))) ∨
       ∃ k outcome uuid, e = ESettle k outcome uuid).
Proof.
  intros Had. pose proof (Inv_run tr initial Inv_initial Had) as HI.
  set (s := run tr initial) in *.
  destruct (Inv_single_flight s HI) as [Hcount Hfly].
  split_and!; [done..|]. intros j Hj Hst.
  assert (isProcessingRef (app s) = true) as Hbusy.
  { destruct HI as [_ Hfl]. unfold flightInv in Hfl.
    destruct (isProcessingRef (app s)); [done|].
    destruct Hfl as [_ Hall]. rewrite Forall_forall in Hall.
    by destruct (Hall j Hj). }
  split.
  { simpl. rewrite processQueue_start_busy by done.
    rewrite app_nil_r. by destruct s. }
  intros e Hen.
  assert (∀ j', j' ∈ queue (app s) → Job.status j' = processing → j' = j)
    as Honly.
  { destruct HI as [_ Hfl]. unfold flightInv in Hfl. rewrite Hbusy in Hfl.
    destruct Hfl as (job & pre & post & _ & Hq & _ & Hpre & Hpost).
    rewrite Forall_forall in Hpre, Hpost.
    assert (∀ x, x ∈ queue (app s) → Job.status x = processing →
                 x = Job.with_status processing job) as Hx.
    { intros x Hin Hxs. rewrite Hq in Hin.
      apply elem_of_app in Hin as [Hin|Hin]; [by destruct (Hpre x Hin)|].
      apply elem_of_cons in Hin as [->|Hin]; [done|by destruct (Hpost x Hin)]. }
    intros j' Hj' Hst'. by rewrite (Hx j'), (Hx j). }
  assert ((∃ k outcome uuid, e = ESettle k outcome uuid) ∨
          (∀ k outcome uuid, e ≠ ESettle k outcome uuid)) as [Hsettle|Hne].
  { destruct e; try by right. left. eauto. }
  - split; [|by right]. intros j' Hj' Hst'.
    pose proof (Inv_exec s e HI Hen) as [_ Hfl'].
    destruct Hsettle as (k & outcome & uuid & ->).
    destruct Hen as [job Hk]. simpl in Hj', Hfl'. rewrite Hk in Hj', Hfl'.
    unfold flightInv in Hfl'. simpl in Hfl'.
    destruct (processQueue_settle_cases job outcome uuid (app s))
      as [(? & ? & _ & _ & E)|(? & _ & E)]; rewrite E in Hj', Hfl';
      simpl in Hj', Hfl'; destruct Hfl' as [_ Hall];
      rewrite Forall_forall in Hall; by destruct (Hall j' Hj').
  - destruct (exec_queue_busy s e Hbusy Hne) as [->|(job & Hp & ->)].
    + split; [done|by left].
    + split; [|left; apply elem_of_app; by left].
      intros j' Hj' Hst'. apply elem_of_app in Hj' as [Hj'|Hj']; [by apply Honly|].
      apply list_elem_of_singleton in Hj' as ->. congruence.
Qed.

Lemma two_jobs_one_tick_admissible : admissible two_jobs_one_tick initial.
Proof. simpl. split_and!; try done; by apply (bool_decide_unpack _). Defined.

Lemma single_flight_witness :
  admissible two_jobs_one_tick initial ∧
  processingCount (queue (app (run two_jobs_one_tick initial))) ≤ 1.
Proof.
  split; [exact two_jobs_one_tick_admissible|].
  exact (proj1 (single_flight two_jobs_one_tick two_jobs_one_tick_admissible)).
Defined.

(** ** Order of processing *)

Lemma pendingIds_app (q1 q2 : list Job.t) :
  pendingIds (q1 ++ q2) = pendingIds q1 ++ pendingIds q2.
Proof. unfold pendingIds. by rewrite filter_app, fmap_app. Qed.

Lemma pendingIds_none (q : list Job.t) :
  Forall (λ j, Job.status j ≠ pending) q → pendingIds q = [].
Proof.
  unfold pendingIds. induction 1 as [|j q Hj _ IH]; [done|].
  by rewrite filter_cons_False.
Qed.

Lemma pendingIds_byId (i : string) (f : Job.t → Job.t) (q : list Job.t) :
  (∀ j, Job.status (f j) ≠ pending) →
  sublist (pendingIds (byId i f <$> q)) (pendingIds q).
Proof.
  intros Hf. unfold pendingIds. induction q as [|j q IH]; [done|].
  rewrite fmap_cons.
  destruct (decide (Job.id j = i)).
  - assert (byId i f j = f j) as -> by (unfold byId; by rewrite decide_True).
    rewrite filter_cons_False by apply Hf.
    destruct (decide (Job.status j = pending)).
    + rewrite filter_cons_True by done. rewrite fmap_cons.
      by apply sublist_cons.
    + by rewrite filter_cons_False.
  - assert (byId i f j = j) as -> by (unfold byId; by rewrite decide_False).
    destruct (decide (Job.status j = pending)).
    + rewrite !filter_cons_True by done. rewrite !fmap_cons.
      by apply sublist_skip.
    + by rewrite !filter_cons_False.
Qed.

Lemma pendingIds_markCompleted (i : string) (q : list Job.t) :
  sublist (pendingIds (markCompleted i q)) (pendingIds q).
Proof.
  unfold pendingIds, markCompleted. induction q as [|j q IH]; [done|].
  destruct (decide (Job.id j ≠ i)).
  - rewrite (filter_cons_True (λ j, Job.id j ≠ i)) by done.
    destruct (decide (Job.status j = pending)).
    + rewrite !filter_cons_True by done. rewrite !fmap_cons.
      by apply sublist_skip.
    + by rewrite !filter_cons_False.
  - rewrite (filter_cons_False (λ j, Job.id j ≠ i)) by done.
    destruct (decide (Job.status j = pending)).
    + rewrite filter_cons_True by done. rewrite fmap_cons.
      by apply sublist_cons.
    + by rewrite filter_cons_False.
Qed.

(** One event: what it starts, followed by what is pending afterwards, is
    in the order of what was pending before followed by what it submits. *)
Lemma started_exec (e : event) (s : System) :
  sublist (startedBy e s ++ pendingIds (queue (app (exec e s))))
          (pendingIds (queue (app s)) ++ submitted [e]).
Proof.
  destruct e; simpl; rewrite ?app_nil_r; try done.
  - unfold appendJob. rewrite pendingIds_app. unfold pendingIds at 2.
    by rewrite filter_cons_True.
  - destruct (processQueue_start_cases (app s))
      as [->|(job & pre & post & _ & Hq & Hst & Hpre & ->)]; [done|].
    simpl. rewrite Hq, markProcessing_byId, fmap_app, fmap_cons.
    rewrite !pendingIds_app.
    change (?x :: ?l) with ([x] ++ l) at 2 3. rewrite !pendingIds_app.
    assert (pendingIds (byId (Job.id job) (Job.with_status processing) <$> pre)
            = []) as ->.
    { apply sublist_nil_r. rewrite <- (pendingIds_none pre Hpre).
      by apply pendingIds_byId. }
    rewrite (pendingIds_none pre Hpre). simpl.
    unfold byId at 1. rewrite decide_True by done.
    unfold pendingIds at 1 3. rewrite filter_cons_False by done.
    rewrite filter_cons_True by done. simpl.
    apply sublist_skip. by apply pendingIds_byId.
  - destruct (inflight s !! k) as [job|]; [|done].
    destruct (processQueue_settle_cases job outcome uuid (app s))
      as [(? & ? & _ & _ & ->)|(? & _ & ->)]; simpl.
    + apply pendingIds_markCompleted.
    + rewrite markFailed_byId. by apply pendingIds_byId.
  - by destruct (uploads s !! k).
Qed.

Lemma submitted_cons (e : event) (tr : list event) :
  submitted (e :: tr) = submitted [e] ++ submitted tr.
Proof. unfold submitted. simpl. by destruct e. Qed.

Lemma started_run (tr : list event) (s : System) :
  sublist (started tr s ++ pendingIds (queue (app (run tr s))))
          (pendingIds (queue (app s)) ++ submitted tr).
Proof.
  revert s. induction tr as [|e tr IH]; intros s.
  - simpl. by rewrite app_nil_r.
  - rewrite submitted_cons. cbn [started run]. rewrite <- app_assoc.
    etrans; [apply sublist_app; [reflexivity|apply IH]|].
    rewrite !app_assoc. apply sublist_app; [|reflexivity].
    apply started_exec.
Qed.

Lemma handleAddToQueue_nodup (prompt : string) (aspectRatio : AspectRatio)
    (uuid : string) (st : AppState) :
  NoDup (Job.id <$> queue st) → uuid ∉ Job.id <$> queue st →
  NoDup (Job.id <$> queue (handleAddToQueue prompt aspectRatio uuid st)).
Proof.
  intros Hnd Hfresh. simpl. unfold appendJob. rewrite fmap_app.
  apply NoDup_app. split_and!; [done| |apply NoDup_singleton].
  intros x Hx Hx'. apply list_elem_of_singleton in Hx'. simpl in Hx'. by subst.
Qed.

Lemma nextPending_cons (j : Job.t) (q : list Job.t) :
  nextPending (j :: q) =
  if decide (Job.status j = pending) then Some j else nextPending q.
Proof.
  unfold nextPending. simpl. destruct (decide (Job.status j = pending)); [done|].
  by destruct (list_find _ q) as [[m x]|].
Qed.

Lemma nextPending_skip (pre post : list Job.t) (j : Job.t) :
  Job.status j ≠ pending →
  nextPending (pre ++ j :: post) = nextPending (pre ++ post).
Proof.
  intros Hj. induction pre as [|x pre IH]; simpl.
  - by rewrite nextPending_cons, decide_False.
  - rewrite !nextPending_cons. by rewrite IH.
Qed.

Lemma processQueue_start_idle (st : AppState) :
  isProcessingRef st = false →
  (processQueue_start st).2 = nextPending (queue st).
Proof.
  intros Hidle. unfold processQueue_start. rewrite Hidle. simpl.
  case_bool_decide as Hlen.
  - by destruct (queue st).
  - by destruct (nextPending (queue st)).
Qed.

(** C2.  [handleAddToQueue] appends the new job, pending and carrying the
    fresh identifier, at the tail of the queue, and identifiers stay unique;
    a tick starts a job exactly when the flag is down and the queue has a
    pending entry, and the job it starts is the first pending entry in queue
    order, whatever precedes it being not pending; along every run the jobs
    started so far followed by the jobs still pending are in the order of
    their submission. *)
Theorem fifo_processing :
  (∀ prompt aspectRatio uuid st,
     queue (handleAddToQueue prompt aspectRatio uuid st) =
     queue st ++
       [Job.mk uuid prompt (referenceImages st) aspectRatio pending None]) ∧
  (∀ prompt aspectRatio uuid st,
     NoDup (Job.id <$> queue st) → uuid ∉ Job.id <$> queue st →
     NoDup (Job.id <$> queue (handleAddToQueue prompt aspectRatio uuid st))) ∧
  (∀ st job,
     (processQueue_start st).2 = Some job ↔
     isProcessingRef st = false ∧
     ∃ pre post, queue st = pre ++ job :: post ∧ Job.status job = pending ∧
                 Forall (λ j, Job.status j ≠ pending) pre) ∧
  (∀ tr,
     sublist (started tr initial ++ pendingIds (queue (app (run tr initial))))
             (submitted tr)) ∧
  (∀ tr, admissible tr initial →
         NoDup (Job.id <$> queue (app (run tr initial)))).
Proof.
  split_and!.
  - done.
  - apply handleAddToQueue_nodup.
  - intros st job. split.
    + intros Hstart. destruct (isProcessingRef st) eqn:Hbusy.
      { by rewrite processQueue_start_busy in Hstart. }
      split; [done|]. rewrite processQueue_start_idle in Hstart by done.
      by apply nextPending_Some.
    + intros [Hidle Hsplit]. rewrite processQueue_start_idle by done.
      by apply nextPending_Some.
  - intros tr. apply (started_run tr initial).
  - intros tr Had. by destruct (Inv_run tr initial Inv_initial Had).
Qed.

Lemma fifo_processing_witness :
  (processQueue_start
     (app (run [EAddToQueue "A red balloon" AR_1_1 "job-1";
                EAddToQueue "A blue kite" AR_16_9 "job-2"] initial))).2 =
  Some (Job.mk "job-1" "A red balloon" [] AR_1_1 pending None).
Proof.
  apply (proj1 (proj2 (proj2 fifo_processing))).
  split; [reflexivity|].
  exists [], [Job.mk "job-2" "A blue kite" [] AR_16_9 pending None].
  split_and!; [reflexivity|reflexivity|constructor].
Defined.

(** ** Settlement of the provider call *)

(** A suspended call is the only one, and the entry of its job is in the
    queue, processing, under an identifier no other entry carries. *)
Lemma Inv_inflight (s : System) (k : nat) (job : Job.t) :
  Inv s → inflight s !! k = Some job →
  isProcessingRef (app s) = true ∧ inflight s = [job] ∧ k = 0 ∧
  Job.status job = pending ∧
  ∃ pre post,
    queue (app s) = pre ++ Job.with_status processing job :: post ∧
    (Job.id job ∉ Job.id <$> pre) ∧ (Job.id job ∉ Job.id <$> post).
Proof.
  intros [Hnd Hfl] Hk. unfold flightInv in Hfl.
  destruct (isProcessingRef (app s));
    [|destruct Hfl as [Hin _]; by rewrite Hin in Hk].
  destruct Hfl as (job' & pre & post & Hin & Hq & Hst & _ & _).
  rewrite Hin in Hk. destruct k as [|k]; [|done]. injection Hk as ->.
  split_and!; try done. exists pre, post. rewrite Hq in Hnd.
  by destruct (NoDup_ids_split _ _ _ Hnd).
Qed.

(** C3.  When the provider call of the job in flight is fulfilled with an
    image, the new gallery item carries that image and the prompt of the
    job and is put in front of the gallery, whose earlier items follow
    unchanged; the entry of the job, and only it, leaves the queue, so no
    entry with its identifier remains; the staged images and the selected
    image are untouched and the busy flag is down. *)
Theorem settle_success (tr : list event) (k : nat) (job : Job.t)
    (imageUrl newId : string) :
  admissible tr initial →
  inflight (run tr initial) !! k = Some job →
  ∃ pre post,
    queue (app (run tr initial)) =
      pre ++ Job.with_status processing job :: post ∧
    queue (app (exec (ESettle k (Fulfilled imageUrl) (Fulfilled newId))
                  (run tr initial))) = pre ++ post ∧
    gallery (app (exec (ESettle k (Fulfilled imageUrl) (Fulfilled newId))
                    (run tr initial))) =
      GalleryItem.mk newId imageUrl (Job.prompt job)
        :: gallery (app (run tr initial)) ∧
    (∀ j, j ∈ queue (app (exec (ESettle k (Fulfilled imageUrl)
                                  (Fulfilled newId)) (run tr initial))) →
          Job.id j ≠ Job.id job) ∧
    referenceImages (app (exec (ESettle k (Fulfilled imageUrl)
                                  (Fulfilled newId)) (run tr initial))) =
      referenceImages (app (run tr initial)) ∧
    selectedImage (app (exec (ESettle k (Fulfilled imageUrl)
                                (Fulfilled newId)) (run tr initial))) =
      selectedImage (app (run tr initial)) ∧
    isProcessingRef (app (exec (ESettle k (Fulfilled imageUrl)
                                  (Fulfilled newId)) (run tr initial))) = false.
Proof.
  intros Had Hk. pose proof (Inv_run tr initial Inv_initial Had) as HI.
  set (s := run tr initial) in *.
  destruct (Inv_inflight s k job HI Hk)
    as (_ & _ & _ & _ & pre & post & Hq & Hpre & Hpost).
  exists pre, post. simpl. rewrite Hk. simpl.
  assert (markCompleted (Job.id job) (queue (app s)) = pre ++ post) as ->.
  { rewrite Hq.
    by apply (markCompleted_at pre post (Job.with_status processing job)). }
  split_and!; try done.
  intros j Hj Heq. apply elem_of_app in Hj as [Hj|Hj].
  - apply Hpre. rewrite <- Heq. by apply list_elem_of_fmap_2.
  - apply Hpost. rewrite <- Heq. by apply list_elem_of_fmap_2.
Qed.

Lemma settle_success_witness :
  ∃ pre post,
    queue (app (run two_jobs_one_tick initial)) =
      pre ++ Job.with_status processing
               (Job.mk "job-1" "A red balloon" [] AR_1_1 pending None) :: post ∧
    queue (app (exec (ESettle 0 (Fulfilled "data:image/png;base64,AAAA")
                        (Fulfilled "item-1"))
                  (run two_jobs_one_tick initial))) = pre ++ post.
Proof.
  destruct (settle_success two_jobs_one_tick 0
              (Job.mk "job-1" "A red balloon" [] AR_1_1 pending None)
              "data:image/png;base64,AAAA" "item-1"
              two_jobs_one_tick_admissible eq_refl)
    as (pre & post & H1 & H2 & _).
  exists pre, post. by split.
Defined.

(** A failed entry is never touched again: every event leaves it in the
    queue as it is. *)
Lemma failed_stays (s : System) (e : event) (j : Job.t) :
  Inv s → enabled s e →
  j ∈ queue (app s) → Job.status j = failed →
  j ∈ queue (app (exec e s)).
Proof.
  intros HI Hen Hj Hst. destruct e; simpl; try done.
  - apply elem_of_app. by left.
  - destruct (processQueue_start_cases (app s))
      as [->|(job & pre & post & _ & Hq & Hjob & _ & ->)]; [done|].
    simpl. destruct HI as [Hnd _]. rewrite Hq in Hnd, Hj.
    destruct (NoDup_ids_split _ _ _ Hnd) as [Hpre Hpost].
    rewrite Hq, markProcessing_byId, byId_at by done.
    apply elem_of_app in Hj as [Hj|Hj]; [apply elem_of_app; by left|].
    apply elem_of_cons in Hj as [->|Hj]; [congruence|].
    apply elem_of_app. right. by right.
  - destruct Hen as [job Hk]. rewrite Hk.
    destruct (Inv_inflight s k job HI Hk)
      as (_ & _ & _ & _ & pre & post & Hq & Hpre & Hpost).
    rewrite Hq in Hj.
    assert (j ∈ pre ∨ j ∈ post) as Hin.
    { apply elem_of_app in Hj as [Hj|Hj]; [by left|].
      apply elem_of_cons in Hj as [->|Hj]; [done|by right]. }
    destruct (processQueue_settle_cases job outcome uuid (app s))
      as [(? & ? & _ & _ & ->)|(? & _ & ->)]; simpl; rewrite Hq.
    + pose proof (markCompleted_at pre post (Job.with_status processing job)
                    Hpre Hpost) as Hdone.
      simpl in Hdone. rewrite Hdone. apply elem_of_app. tauto.
    + rewrite markFailed_byId, byId_at by done.
      apply elem_of_app. destruct Hin; [by left|right; by right].
  - by destruct (uploads s !! k).
Qed.

Lemma failed_stays_run (tr : list event) (s : System) (j : Job.t) :
  Inv s → admissible tr s →
  j ∈ queue (app s) → Job.status j = failed →
  j ∈ queue (app (run tr s)).
Proof.
  revert s. induction tr as [|e tr IH]; intros s HI Had Hj Hst; [done|].
  destruct Had as [Hen Had]. simpl.
  apply IH; [by apply Inv_exec|done|by apply failed_stays|done].
Qed.

(** C4.  When the provider call of the job in flight is rejected with an
    error of message [m], the entry of the job stays where it is in the
    queue with status [failed] and error [m], the other entries and the
    gallery are unchanged and the busy flag is down; the next tick starts
    the first pending job among the other entries, if there is one; and
    whatever happens afterwards the failed entry stays in the queue as it
    is, so it is neither removed nor made pending again. *)
Theorem settle_failure (tr : list event) (k : nat) (job : Job.t)
    (m : string) (blockReason : option string) (uuid : settled string) :
  admissible tr initial →
  inflight (run tr initial) !! k = Some job →
  ∃ pre post,
    queue (app (run tr initial)) =
      pre ++ Job.with_status processing job :: post ∧
    queue (app (exec (ESettle k (Rejected (ErrorObj m blockReason)) uuid)
                  (run tr initial))) =
      pre ++ Job.mk (Job.id job) (Job.prompt job) (Job.referenceImages job)
               (Job.aspectRatio job) failed (Some m) :: post ∧
    gallery (app (exec (ESettle k (Rejected (ErrorObj m blockReason)) uuid)
                    (run tr initial))) = gallery (app (run tr initial)) ∧
    isProcessingRef
      (app (exec (ESettle k (Rejected (ErrorObj m blockReason)) uuid)
              (run tr initial))) = false ∧
    (processQueue_start
       (app (exec (ESettle k (Rejected (ErrorObj m blockReason)) uuid)
               (run tr initial)))).2 = nextPending (pre ++ post) ∧
    ∀ tr',
      admissible tr'
        (exec (ESettle k (Rejected (ErrorObj m blockReason)) uuid)
           (run tr initial)) →
      Job.mk (Job.id job) (Job.prompt job) (Job.referenceImages job)
        (Job.aspectRatio job) failed (Some m)
      ∈ queue (app (run tr'
                 (exec (ESettle k (Rejected (ErrorObj m blockReason)) uuid)
                    (run tr initial)))).
Proof.
  intros Had Hk. pose proof (Inv_run tr initial Inv_initial Had) as HI.
  set (s := run tr initial) in *.
  set (e := ESettle k (Rejected (ErrorObj m blockReason)) uuid).
  assert (enabled s e) as Hen by (simpl; eauto).
  pose proof (Inv_exec s e HI Hen) as HI'.
  destruct (Inv_inflight s k job HI Hk)
    as (_ & _ & _ & _ & pre & post & Hq & Hpre & Hpost).
  exists pre, post.
  assert (queue (app (exec e s)) =
          pre ++ Job.mk (Job.id job) (Job.prompt job) (Job.referenceImages job)
                   (Job.aspectRatio job) failed (Some m) :: post) as Hq'.
  { simpl. rewrite Hk. simpl. rewrite Hq, markFailed_byId.
    by rewrite byId_at. }
  assert (isProcessingRef (app (exec e s)) = false) as Hidle.
  { simpl. by rewrite Hk. }
  split_and!; try done.
  - simpl. by rewrite Hk.
  - rewrite processQueue_start_idle, Hq' by done.
    by apply nextPending_skip.
  - intros tr' Had'. apply failed_stays_run; try done.
    rewrite Hq'. apply elem_of_app. right. left.
Qed.

Lemma settle_failure_witness :
  ∃ pre post,
    queue (app (exec (ESettle 0 (Rejected
                        (ErrorObj "Request blocked: SAFETY." None))
                        (Fulfilled "item-1"))
                  (run two_jobs_one_tick initial))) =
      pre ++ Job.mk "job-1" "A red balloon" [] AR_1_1 failed
               (Some "Request blocked: SAFETY.") :: post.
Proof.
  destruct (settle_failure two_jobs_one_tick 0
              (Job.mk "job-1" "A red balloon" [] AR_1_1 pending None)
              "Request blocked: SAFETY." None (Fulfilled "item-1")
              two_jobs_one_tick_admissible eq_refl)
    as (pre & post & _ & H2 & _).
  by exists pre, post.
Defined.

(** ** The busy flag *)

(** C5.  Whatever the provider call settles with, and whether or not the
    handling of its result throws, the continuation of [processQueue]
    completes normally with the busy flag down, and a tick that follows
    starts the first pending job of the queue if there is one.  The reset
    does not depend on the body of the [try]: a [finally] block that lowers
    the flag lowers it after every body, however that body completes. *)
Theorem busy_flag_released :
  (∀ job outcome uuid st,
     (processQueue_settle job outcome uuid st).1 = Fulfilled tt ∧
     isProcessingRef (processQueue_settle job outcome uuid st).2 = false ∧
     (processQueue_start (processQueue_settle job outcome uuid st).2).2 =
       nextPending (queue (processQueue_settle job outcome uuid st).2)) ∧
  (∀ (body : Eff unit) st,
     isProcessingRef
       (try_finally body (update (setIsProcessing false)) st).2 = false).
Proof.
  split.
  - intros job outcome uuid st.
    assert (isProcessingRef (processQueue_settle job outcome uuid st).2 = false)
      as Hidle.
    { destruct (processQueue_settle_cases job outcome uuid st)
        as [(? & ? & _ & _ & ->)|(? & _ & ->)]; done. }
    split_and!; [|done|by apply processQueue_start_idle].
    destruct (processQueue_settle_cases job outcome uuid st)
      as [(? & ? & _ & _ & ->)|(? & _ & ->)]; done.
  - intros body st. unfold try_finally. by destruct (body st).
Qed.

(** ** Updaters called with an absent identifier *)

(** C8.  For an identifier that no entry of the queue carries, the removal
    of a completed job, the marking of a failed job and the marking of a
    processing job return the queue unchanged; accordingly a continuation
    of [processQueue] whose job is no longer queued completes normally and
    leaves the queue as it was, on success and on failure. *)
Theorem absent_id_noop (id errorMessage : string) (q : list Job.t) :
  id ∉ Job.id <$> q →
  markCompleted id q = q ∧
  markFailed id errorMessage q = q ∧
  markProcessing id q = q ∧
  ∀ job outcome uuid st,
    Job.id job = id → queue st = q →
    (processQueue_settle job outcome uuid st).1 = Fulfilled tt ∧
    queue (processQueue_settle job outcome uuid st).2 = q.
Proof.
  intros Hid. split_and!.
  - by apply markCompleted_absent.
  - rewrite markFailed_byId. by apply byId_absent.
  - rewrite markProcessing_byId. by apply byId_absent.
  - intros job outcome uuid st <- <-.
    destruct (processQueue_settle_cases job outcome uuid st)
      as [(? & ? & _ & _ & ->)|(? & _ & ->)]; simpl.
    + split; [done|]. by apply markCompleted_absent.
    + split; [done|]. rewrite markFailed_byId. by apply byId_absent.
Qed.

Lemma absent_id_noop_witness :
  markCompleted "job-9" [Job.mk "job-1" "A red balloon" [] AR_1_1 pending None]
  = [Job.mk "job-1" "A red balloon" [] AR_1_1 pending None] ∧
  markFailed "job-9" "Request blocked: SAFETY."
    [Job.mk "job-1" "A red balloon" [] AR_1_1 pending None]
  = [Job.mk "job-1" "A red balloon" [] AR_1_1 pending None].
Proof.
  assert ("job-9" ∉ Job.id <$>
            [Job.mk "job-1" "A red balloon" [] AR_1_1 pending None]) as Hid
    by by apply (bool_decide_unpack _).
  destruct (absent_id_noop "job-9" "Request blocked: SAFETY."
              [Job.mk "job-1" "A red balloon" [] AR_1_1 pending None] Hid)
    as (H1 & H2 & _).
  by split.
Defined.

(** ** Empty prompts *)

(** C6, as stated, fails: [handleAddToQueue] appends a job for the empty
    prompt. *)
Lemma handleAddToQueue_accepts_empty_prompt :
  queue (handleAddToQueue EmptyString AR_1_1 "job-1" initialApp) =
    [Job.mk "job-1" EmptyString [] AR_1_1 pending None] ∧
  queue (handleAddToQueue EmptyString AR_1_1 "job-1" initialApp) ≠ queue initialApp.
Proof. split; [reflexivity|discriminate]. Qed.

(** C6, amended.  A submission whose prompt is empty or has only white
    space is dropped by the form: [handleSubmit] does not call the enqueue
    operation and changes neither the form nor the application state, so no
    job is created.  [handleAddToQueue] itself does not look at the prompt:
    it appends a pending job for every prompt it is given. *)
Theorem blank_prompt_stopped_by_form :
  (∀ form uuid st,
     trim (prompt form) = EmptyString → handleSubmit form uuid st = (form, st)) ∧
  (∀ prompt aspectRatio uuid st,
     queue (handleAddToQueue prompt aspectRatio uuid st) =
     queue st ++
       [Job.mk uuid prompt (referenceImages st) aspectRatio pending None]).
Proof.
  split; [|done]. intros form uuid st Hblank.
  unfold handleSubmit. by rewrite Hblank.
Qed.

Lemma blank_prompt_stopped_by_form_witness :
  handleSubmit (mkForm EmptyString AR_1_1 false) (Fulfilled "job-1") initialApp =
    (mkForm EmptyString AR_1_1 false, initialApp) ∧
  handleSubmit (mkForm "   " AR_4_3 false) (Fulfilled "job-1") initialApp =
    (mkForm "   " AR_4_3 false, initialApp).
Proof.
  split; apply (proj1 blank_prompt_stopped_by_form); reflexivity.
Defined.

(** ** Reference images in the provider request *)

(** Once the client is constructed, a call is the body of the [try] under
    the [catch]; a constructor that throws rejects the call with what it
    threw. *)
Lemma generateImage_000_constructed (ai : Models) (prompt : string)
    (aspectRatio : AspectRatio) (referenceImages : list string) :
  Part_000.generateImage (Fulfilled ai) prompt aspectRatio referenceImages =
  rethrow
    (if bool_decide (0 < length referenceImages) then
       parts ← Part_000.multimodalParts prompt referenceImages;
       response ← generateContent ai (multimodalRequest parts);
       imageOfContent response
     else textToImage ai prompt aspectRatio).
Proof. reflexivity. Qed.

Lemma generateImage_001_constructed (ai : Models) (prompt : string)
    (aspectRatio : AspectRatio) (referenceImages : list string) :
  Part_001.generateImage (Fulfilled ai) prompt aspectRatio referenceImages =
  rethrow
    (if bool_decide (0 < length referenceImages) then
       parts ← Part_001.multimodalParts prompt referenceImages;
       response ← generateContent ai (multimodalRequest parts);
       imageOfContent response
     else textToImage ai prompt aspectRatio).
Proof. reflexivity. Qed.

Lemma mapThrowing_Fulfilled {A B : Type} (f : A → settled B) (l : list A)
    (ys : list B) :
  mapThrowing f l = Fulfilled ys ↔ Forall2 (λ x y, f x = Fulfilled y) l ys.
Proof.
  revert ys. induction l as [|x l IH]; intros ys; simpl.
  - split.
    + intros [= <-]. constructor.
    + by intros ->%Forall2_nil_inv_l.
  - split.
    + destruct (f x) as [y|e] eqn:Hx; [|done]. simpl.
      destruct (mapThrowing f l) as [ys'|e] eqn:Hl; [|done]. simpl.
      intros [= <-]. constructor; [done|]. by apply IH.
    + intros (y & ys' & Hx & Hl & ->)%Forall2_cons_inv_l.
      rewrite Hx. simpl. apply IH in Hl. by rewrite Hl.
Qed.

(** C7, as stated, fails for the service that the application component is
    bundled with: of two reference images only the first is in the parts of
    the request. *)
Lemma second_reference_image_dropped :
  Part_000.multimodalParts "merge the two"
    ["data:image/png;base64,AAAA"; "data:image/jpeg;base64,BBBB"] =
  Fulfilled [InlineData "image/png" "AAAA"; Text "merge the two"] ∧
  Part_000.multimodalParts "merge the two"
    ["data:image/png;base64,AAAA"; "data:image/jpeg;base64,BBBB"] ≠
  Fulfilled [InlineData "image/png" "AAAA"; InlineData "image/jpeg" "BBBB";
             Text "merge the two"].
Proof. split; [reflexivity|discriminate]. Qed.

(** C7, amended.  For a call with one or more reference images that are
    data URLs, the service of part_001 sends one part per reference image,
    in order, followed by the text prompt; the service of part_000 sends
    the part of the first reference image followed by the text prompt and
    leaves the other images out of the request. *)
Theorem reference_images_in_request :
  (∀ ai prompt aspectRatio referenceImages parts,
     referenceImages ≠ [] →
     Forall2 (λ base64 part, fileToGenerativePart base64 = Fulfilled part)
       referenceImages parts →
     Part_001.multimodalParts prompt referenceImages =
       Fulfilled (parts ++ [Text prompt]) ∧
     Part_001.generateImage (Fulfilled ai) prompt aspectRatio referenceImages =
       rethrow (response ← generateContent ai
                             (multimodalRequest (parts ++ [Text prompt]));
                imageOfContent response)) ∧
  (∀ ai prompt aspectRatio base64 others part,
     fileToGenerativePart base64 = Fulfilled part →
     Part_000.multimodalParts prompt (base64 :: others) =
       Fulfilled [part; Text prompt] ∧
     Part_000.generateImage (Fulfilled ai) prompt aspectRatio
       (base64 :: others) =
       rethrow (response ← generateContent ai
                             (multimodalRequest [part; Text prompt]);
                imageOfContent response)).
Proof.
  split.
  - intros ai prompt aspectRatio referenceImages parts Hne Hparts.
    apply mapThrowing_Fulfilled in Hparts.
    assert (Part_001.multimodalParts prompt referenceImages =
            Fulfilled (parts ++ [Text prompt])) as Hmm.
    { unfold Part_001.multimodalParts. by rewrite Hparts. }
    split; [done|]. rewrite generateImage_001_constructed.
    rewrite bool_decide_eq_true_2 by (destruct referenceImages; simpl; [done|lia]).
    by rewrite Hmm.
  - intros ai prompt aspectRatio base64 others part Hpart.
    assert (Part_000.multimodalParts prompt (base64 :: others) =
            Fulfilled [part; Text prompt]) as Hmm.
    { unfold Part_000.multimodalParts. simpl. by rewrite Hpart. }
    split; [done|]. rewrite generateImage_000_constructed.
    rewrite bool_decide_eq_true_2 by (simpl; lia).
    by rewrite Hmm.
Qed.

Lemma reference_images_in_request_witness :
  Part_001.multimodalParts "merge the two"
    ["data:image/png;base64,AAAA"; "data:image/jpeg;base64,BBBB"] =
  Fulfilled [InlineData "image/png" "AAAA"; InlineData "image/jpeg" "BBBB";
             Text "merge the two"] ∧
  Part_000.multimodalParts "merge the two"
    ["data:image/png;base64,AAAA"; "data:image/jpeg;base64,BBBB"] =
  Fulfilled [InlineData "image/png" "AAAA"; Text "merge the two"].
Proof.
  split.
  - refine (proj1 (proj1 reference_images_in_request
             (mkModels (λ _, Rejected NonError) (λ _, Rejected NonError))
             "merge the two" AR_1_1
             ["data:image/png;base64,AAAA"; "data:image/jpeg;base64,BBBB"]
             [InlineData "image/png" "AAAA"; InlineData "image/jpeg" "BBBB"]
             _ _)).
    + discriminate.
    + repeat constructor.
  - refine (proj1 (proj2 reference_images_in_request
             (mkModels (λ _, Rejected NonError) (λ _, Rejected NonError))
             "merge the two" AR_1_1
             "data:image/png;base64,AAAA" ["data:image/jpeg;base64,BBBB"]
             (InlineData "image/png" "AAAA") _)).
    reflexivity.
Defined.

(** ** Staging of reference images *)

Lemma slice0_of_nat {A : Type} (n : nat) (l : list A) :
  slice0 (Z.of_nat n) l = take n l.
Proof.
  unfold slice0. destruct (Z.ltb_spec (Z.of_nat n) 0) as [Hneg|_]; [lia|].
  destruct (decide (n ≤ length l)) as [Hle|Hgt].
  - rewrite Z.min_l by lia. by rewrite Nat2Z.id.
  - rewrite Z.min_r by lia. rewrite Nat2Z.id.
    by rewrite !take_ge by lia.
Qed.

Lemma promise_all_Fulfilled {A : Type} (vs : list A) :
  promise_all (Fulfilled <$> vs) = Fulfilled vs.
Proof.
  induction vs as [|v vs IH]; [done|].
  rewrite fmap_cons. cbn [promise_all]. by rewrite IH.
Qed.

Lemma promise_all_length {A : Type} (ps : list (settled A)) (vs : list A) :
  promise_all ps = Fulfilled vs → length vs = length ps.
Proof.
  revert vs. induction ps as [|[v|e] ps IH]; intros vs; simpl; [by intros [= <-]| |done].
  destruct (promise_all ps) as [vs'|e]; [|done].
  intros [= <-]. simpl. by rewrite (IH vs').
Qed.

Lemma handleImageUpload_length (images : list string)
    (targetFiles : option (list File)) (result : list string) :
  length images ≤ 4 →
  handleImageUpload images targetFiles = Some result →
  length result ≤ 4.
Proof.
  intros Hc. unfold handleImageUpload, MAX_IMAGES.
  destruct targetFiles as [fs|]; [|done].
  replace (4 - Z.of_nat (length images))%Z
    with (Z.of_nat (4 - length images)) by lia.
  rewrite slice0_of_nat.
  destruct (promise_all _) as [newImages|e] eqn:Hall; [|done].
  intros [= <-]. apply promise_all_length in Hall.
  rewrite length_app, Hall, length_take. lia.
Qed.

Lemma handleRemoveImage_length (images : list string) (index : nat) :
  length (handleRemoveImage images index) ≤ length images.
Proof.
  unfold handleRemoveImage. rewrite length_fmap.
  etrans; [apply length_filter|]. by rewrite length_imap.
Qed.

Lemma stagingInv_exec (s : System) (e : event) :
  stagingInv s → stagingInv (exec e s).
Proof.
  intros [Hc Hup]. destruct e; simpl; try by split.
  - split; [simpl; lia|done].
  - destruct (processQueue_start_cases (app s))
      as [->|(job & pre & post & _ & _ & _ & _ & ->)]; by split.
  - destruct (inflight s !! k) as [job|]; [|by split].
    destruct (processQueue_settle_cases job outcome uuid (app s))
      as [(? & ? & _ & _ & ->)|(? & _ & ->)]; by split.
  - split; [done|]. apply Forall_app. split; [done|].
    destruct (handleImageUpload _ _) as [result|] eqn:Hres; simpl; [|done].
    apply Forall_singleton. by eapply handleImageUpload_length.
  - destruct (uploads s !! k) as [images|] eqn:Hk; [|by split].
    split; simpl.
    + rewrite Forall_forall in Hup. apply Hup.
      apply list_elem_of_lookup. eauto.
    + by apply Forall_delete.
  - split; [|done]. simpl.
    etrans; [apply handleRemoveImage_length|done].
Qed.

Lemma stagingInv_run (tr : list event) (s : System) :
  stagingInv s → stagingInv (run tr s).
Proof.
  revert s. induction tr as [|e tr IH]; intros s Hs; [done|].
  simpl. by apply IH, stagingInv_exec.
Qed.

Lemma handleImageUpload_all_read (images newImages : list string) :
  length images ≤ 4 →
  handleImageUpload images (Some (Fulfilled <$> newImages)) =
  Some (images ++ take (4 - length images) newImages).
Proof.
  intros Hc. unfold handleImageUpload, MAX_IMAGES.
  replace (4 - Z.of_nat (length images))%Z
    with (Z.of_nat (4 - length images)) by lia.
  rewrite slice0_of_nat, <- fmap_take.
  unfold File. by rewrite promise_all_Fulfilled.
Qed.

Lemma stagingInv_initial : stagingInv initial.
Proof. split; [simpl; lia|constructor]. Qed.

(** An upload in a state with at most four staged images stages them
    followed by the new images that fit. *)
Lemma uploadNow_staged (newImages : list string) (s : System) :
  length (referenceImages (app s)) ≤ 4 →
  referenceImages (app (uploadNow newImages s)) =
  referenceImages (app s) ++
    take (4 - length (referenceImages (app s))) newImages.
Proof.
  intros Hc. unfold uploadNow. cbn [exec app uploads].
  rewrite handleImageUpload_all_read by done.
  change (option_list (Some ?x)) with [x].
  by rewrite list_lookup_middle.
Qed.

(** C9.  With [c <= 4] images staged, an upload of [k] images hands to the
    panel the staged images followed by the first [min k (4 - c)] new ones,
    in order, without raising an error, so at most four images are staged
    afterwards.  What the upload hands over waits among the suspended
    uploads and becomes the staged images when it resumes: in every state
    of a run at most four images are staged, an upload there stages the
    images staged before followed by the first new ones that fit, and a
    job enqueued after it carries exactly those images and leaves the
    staging area empty. *)
Theorem staging_cap (images newImages : list string) :
  length images ≤ 4 →
  handleImageUpload images (Some (Fulfilled <$> newImages)) =
    Some (images ++ take (4 - length images) newImages) ∧
  length (take (4 - length images) newImages) =
    length newImages `min` (4 - length images) ∧
  length (images ++ take (4 - length images) newImages) ≤ 4 ∧
  (∀ s targetFiles,
     uploads (exec (EUploadStart targetFiles) s) =
     uploads s ++
       option_list (handleImageUpload (referenceImages (app s)) targetFiles)) ∧
  (∀ s k handedOver,
     uploads s !! k = Some handedOver →
     referenceImages (app (exec (EUploadDone k) s)) = handedOver) ∧
  ∀ tr,
    length (referenceImages (app (run tr initial))) ≤ 4 ∧
    referenceImages (app (uploadNow newImages (run tr initial))) =
      referenceImages (app (run tr initial)) ++
        take (4 - length (referenceImages (app (run tr initial)))) newImages ∧
    length (referenceImages (app (uploadNow newImages (run tr initial)))) ≤ 4 ∧
    ∀ prompt aspectRatio uuid,
      last (queue (app (exec (EAddToQueue prompt aspectRatio uuid)
                         (run tr initial)))) =
        Some (Job.mk uuid prompt (referenceImages (app (run tr initial)))
                aspectRatio pending None) ∧
      referenceImages (app (exec (EAddToQueue prompt aspectRatio uuid)
                              (run tr initial))) = [] ∧
      last (queue (app (exec (EAddToQueue prompt aspectRatio uuid)
                         (uploadNow newImages (run tr initial))))) =
        Some (Job.mk uuid prompt
                (referenceImages (app (run tr initial)) ++
                   take (4 - length (referenceImages (app (run tr initial))))
                     newImages)
                aspectRatio pending None).
Proof.
  intros Hc. split_and!.
  - by apply handleImageUpload_all_read.
  - rewrite length_take. lia.
  - rewrite length_app, length_take. lia.
  - done.
  - intros s k handedOver Hk. simpl. by rewrite Hk.
  - intros tr.
    destruct (stagingInv_run tr initial stagingInv_initial) as [Hstaged _].
    pose proof (uploadNow_staged newImages (run tr initial) Hstaged) as Hup.
    split_and!; [done|done| |].
    + rewrite Hup, length_app, length_take. lia.
    + intros prompt0 aspectRatio0 uuid. cbn [exec app]. split_and!.
      * simpl. unfold appendJob. by rewrite last_snoc.
      * done.
      * unfold handleAddToQueue. rewrite Hup. simpl. unfold appendJob.
        by rewrite last_snoc.
Qed.

Lemma staging_cap_witness :
  handleImageUpload ["data:image/png;base64,AAAA"]
    (Some (Fulfilled <$> ["data:image/png;base64,BBBB";
                          "data:image/png;base64,CCCC";
                          "data:image/png;base64,DDDD";
                          "data:image/png;base64,EEEE";
                          "data:image/png;base64,FFFF"])) =
  Some ["data:image/png;base64,AAAA"; "data:image/png;base64,BBBB";
        "data:image/png;base64,CCCC"; "data:image/png;base64,DDDD"] ∧
  referenceImages
    (app (uploadNow ["data:image/png;base64,BBBB";
                     "data:image/png;base64,CCCC";
                     "data:image/png;base64,DDDD";
                     "data:image/png;base64,EEEE";
                     "data:image/png;base64,FFFF"]
            (run [EUploadStart (Some [Fulfilled "data:image/png;base64,AAAA"]);
                  EUploadDone 0] initial))) =
  ["data:image/png;base64,AAAA"; "data:image/png;base64,BBBB";
   "data:image/png;base64,CCCC"; "data:image/png;base64,DDDD"].
Proof.
  assert (length ["data:image/png;base64,AAAA"] ≤ 4) as Hc by (simpl; lia).
  destruct (staging_cap ["data:image/png;base64,AAAA"]
              ["data:image/png;base64,BBBB"; "data:image/png;base64,CCCC";
               "data:image/png;base64,DDDD"; "data:image/png;base64,EEEE";
               "data:image/png;base64,FFFF"] Hc)
    as (H1 & _ & _ & _ & _ & Hrun).
  split; [exact H1|].
  exact (proj1 (proj2 (Hrun
           [EUploadStart (Some [Fulfilled "data:image/png;base64,AAAA"]);
            EUploadDone 0]))).
Defined.

(** ** Applying an upscaled image *)

(** C10.  [handleUpscaleImage] leaves the queue, the staged images, the
    busy flag and the suspended calls as they are; the gallery keeps its
    length and order, each item keeps its identifier and prompt, an item
    whose identifier is not [itemId] is unchanged and an item whose
    identifier is [itemId] gets [newSrc] as its image; if no item has the
    identifier, the gallery is unchanged. *)
Theorem upscale_frame (itemId newSrc : string) (s : System) :
  queue (app (exec (EUpscale itemId newSrc) s)) = queue (app s) ∧
  referenceImages (app (exec (EUpscale itemId newSrc) s)) =
    referenceImages (app s) ∧
  isProcessingRef (app (exec (EUpscale itemId newSrc) s)) =
    isProcessingRef (app s) ∧
  inflight (exec (EUpscale itemId newSrc) s) = inflight s ∧
  length (gallery (handleUpscaleImage itemId newSrc (app s))) =
    length (gallery (app s)) ∧
  (∀ i item,
     gallery (app s) !! i = Some item →
     ∃ item',
       gallery (handleUpscaleImage itemId newSrc (app s)) !! i = Some item' ∧
       GalleryItem.id item' = GalleryItem.id item ∧
       GalleryItem.prompt item' = GalleryItem.prompt item ∧
       (GalleryItem.id item ≠ itemId → item' = item) ∧
       (GalleryItem.id item = itemId → GalleryItem.src item' = newSrc)) ∧
  (itemId ∉ GalleryItem.id <$> gallery (app s) →
   gallery (handleUpscaleImage itemId newSrc (app s)) = gallery (app s)).
Proof.
  split_and!; try done.
  - simpl. by rewrite length_fmap.
  - intros i item Hi. simpl. rewrite list_lookup_fmap, Hi. simpl.
    eexists. split; [done|].
    destruct (decide (GalleryItem.id item = itemId)); by split_and!.
  - simpl. generalize (gallery (app s)). intros g Hni.
    induction g as [|item g IH]; [done|].
    rewrite fmap_cons in Hni. apply not_elem_of_cons in Hni as [Hne Hni].
    rewrite fmap_cons, IH by done. by rewrite decide_False.
Qed.

Lemma upscale_frame_witness :
  gallery (handleUpscaleImage "item-9" "data:image/png;base64,BBBB"
             (mkApp [] [] [GalleryItem.mk "item-1" "data:image/png;base64,AAAA"
                             "A red balloon"] None false)) =
  [GalleryItem.mk "item-1" "data:image/png;base64,AAAA" "A red balloon"].
Proof.
  refine (proj2 (proj2 (proj2 (proj2 (proj2 (proj2
    (upscale_frame "item-9" "data:image/png;base64,BBBB"
       (mkSystem
          (mkApp [] [] [GalleryItem.mk "item-1" "data:image/png;base64,AAAA"
                          "A red balloon"] None false) [] [])))))))
    _).
  by apply (bool_decide_unpack _).
Defined.

(** * Further properties of the code *)

(** ** Data URLs *)

Lemma append_nil_l (s : string) : EmptyString +:+ s = s.
Proof. reflexivity. Qed.

Lemma append_cons (c : ascii) (s t : string) :
  String c s +:+ t = String c (s +:+ t).
Proof. reflexivity. Qed.

Lemma prefix_split (p s : string) :
  String.prefix p s = true → s = p +:+ dropChars (String.length p) s.
Proof.
  revert s. induction p as [|a p IH]; intros s; [done|].
  destruct s as [|b s]; [done|]. cbn [String.prefix].
  destruct (ascii_dec a b) as [->|]; [|done].
  intros Hp. rewrite append_cons. cbn [String.length dropChars].
  by rewrite <- IH.
Qed.

Lemma prefix_append (p s : string) : String.prefix p (p +:+ s) = true.
Proof.
  induction p as [|a p IH]; [rewrite append_nil_l; by destruct s|].
  rewrite append_cons. cbn [String.prefix].
  by destruct (ascii_dec a a).
Qed.

Lemma dropChars_append (p s : string) :
  dropChars (String.length p) (p +:+ s) = s.
Proof. induction p as [|a p IH]; [by destruct s|]. by rewrite append_cons. Qed.

Lemma hasLineTerminator_append (s t : string) :
  hasLineTerminator (s +:+ t) = hasLineTerminator s || hasLineTerminator t.
Proof.
  induction s as [|c s IH]; [done|].
  rewrite append_cons. cbn [hasLineTerminator]. by rewrite IH, orb_assoc.
Qed.

Lemma truthy_true (s : string) : truthy s = true ↔ s ≠ EmptyString.
Proof. by destruct s. Qed.

Lemma lastBase64Split_sound (s m d : string) :
  lastBase64Split s = Some (m, d) →
  s = m +:+ ";base64," +:+ d ∧ d ≠ EmptyString.
Proof.
  revert m. induction s as [|c s IH]; intros m; [done|].
  cbn [lastBase64Split].
  destruct (lastBase64Split s) as [[m' d']|].
  - intros [= <- <-]. destruct (IH m' eq_refl) as [-> Hd].
    by rewrite append_cons.
  - destruct (String.prefix ";base64," (String c s)) eqn:Hp; [|done].
    destruct (truthy (dropChars 8 (String c s))) eqn:Ht; [|done].
    simpl andb. cbv iota. intros [= <- <-]. split.
    + rewrite append_nil_l. by apply prefix_split in Hp.
    + by apply truthy_true.
Qed.

Lemma hasChar_append (c : ascii) (s t : string) :
  hasChar c (s +:+ t) = hasChar c s || hasChar c t.
Proof.
  induction s as [|a s IH]; [done|].
  rewrite append_cons. cbn [hasChar]. by rewrite IH, orb_assoc.
Qed.

Lemma lastBase64Split_no_semicolon (s : string) :
  hasChar ";" s = false → lastBase64Split s = None.
Proof.
  induction s as [|c s IH]; [done|]. cbn [hasChar lastBase64Split].
  intros [Hc Hs]%orb_false_elim. rewrite (IH Hs).
  apply bool_decide_eq_false in Hc. cbn [String.prefix].
  by destruct (ascii_dec ";" c) as [<-|].
Qed.

Lemma lastBase64Split_exact (m d : string) :
  d ≠ EmptyString → hasChar ";" d = false →
  lastBase64Split (m +:+ ";base64," +:+ d) = Some (m, d).
Proof.
  intros Hd Hsemi. induction m as [|c m IH].
  - rewrite append_nil_l.
    change (";base64," +:+ d) with (String ";" ("base64," +:+ d)).
    cbn [lastBase64Split].
    rewrite lastBase64Split_no_semicolon
      by (rewrite hasChar_append; by rewrite Hsemi).
    change (String ";" ("base64," +:+ d)) with (";base64," +:+ d).
    rewrite prefix_append.
    change 8 with (String.length ";base64,").
    rewrite dropChars_append. by destruct d.
  - rewrite append_cons. cbn [lastBase64Split]. by rewrite IH.
Qed.

Lemma lastBase64Split_some (m d : string) :
  d ≠ EmptyString →
  ∃ m' d', lastBase64Split (m +:+ ";base64," +:+ d) = Some (m', d') ∧
           String.length m ≤ String.length m'.
Proof.
  intros Hd. induction m as [|c m IH].
  - rewrite append_nil_l.
    change (";base64," +:+ d) with (String ";" ("base64," +:+ d)).
    cbn [lastBase64Split].
    destruct (lastBase64Split ("base64," +:+ d)) as [[m' d']|].
    + exists (String ";" m'), d'. split; [done|]. simpl. lia.
    + change (String ";" ("base64," +:+ d)) with (";base64," +:+ d).
      rewrite prefix_append.
      change 8 with (String.length ";base64,").
      rewrite dropChars_append. exists EmptyString, d.
      by destruct d.
  - destruct IH as (m' & d' & Hsplit & Hlen).
    rewrite append_cons. cbn [lastBase64Split]. rewrite Hsplit.
    exists (String c m'), d'. split; [done|]. simpl. lia.
Qed.

Lemma fileToGenerativePart_parts (base64 : string) :
  match fileToGenerativePart base64 with
  | Fulfilled part =>
      ∃ mimeType data,
        part = InlineData mimeType data ∧
        base64 = "data:" +:+ mimeType +:+ ";base64," +:+ data ∧
        mimeType ≠ EmptyString ∧ data ≠ EmptyString ∧
        hasLineTerminator mimeType = false ∧ hasLineTerminator data = false
  | Rejected e => e = ErrorObj "Invalid base64 string format" None
  end.
Proof.
  unfold fileToGenerativePart, matchDataUrl.
  destruct (String.prefix "data:" base64) eqn:Hp; [|done].
  apply prefix_split in Hp. change (String.length "data:") with 5 in Hp.
  destruct (hasLineTerminator (dropChars 5 base64)) eqn:Hlt; [done|].
  destruct (lastBase64Split (dropChars 5 base64)) as [[m d]|] eqn:Hs; [|done].
  destruct (truthy m) eqn:Hm; [|done].
  apply lastBase64Split_sound in Hs as [Hs Hd].
  rewrite Hs, !hasLineTerminator_append in Hlt.
  apply orb_false_elim in Hlt as [Hlm Hlt].
  apply orb_false_elim in Hlt as [_ Hld].
  exists m, d. split_and!; try done.
  - by rewrite <- Hs.
  - by apply truthy_true.
Qed.

(** X1.  What [fileToGenerativePart] accepts is a data URL and what it
    returns are its two parts: the input is ["data:"], the media type,
    [";base64,"] and the payload, both non-empty and free of line
    terminators.  Every other input is rejected with the one message
    ['Invalid base64 string format']. *)
Theorem fileToGenerativePart_sound (base64 : string) :
  match fileToGenerativePart base64 with
  | Fulfilled part =>
      ∃ mimeType data,
        part = InlineData mimeType data ∧
        base64 = "data:" +:+ mimeType +:+ ";base64," +:+ data ∧
        mimeType ≠ EmptyString ∧ data ≠ EmptyString ∧
        hasLineTerminator mimeType = false ∧ hasLineTerminator data = false
  | Rejected e => e = ErrorObj "Invalid base64 string format" None
  end.
Proof. apply fileToGenerativePart_parts. Qed.

Lemma data_url_accepted (mimeType data : string) :
  mimeType ≠ EmptyString → data ≠ EmptyString →
  hasLineTerminator mimeType = false → hasLineTerminator data = false →
  (∃ m d, fileToGenerativePart ("data:" +:+ mimeType +:+ ";base64," +:+ data)
          = Fulfilled (InlineData m d)) ∧
  (hasChar ";" data = false →
   fileToGenerativePart ("data:" +:+ mimeType +:+ ";base64," +:+ data)
   = Fulfilled (InlineData mimeType data)).
Proof.
  intros Hm Hd Hlm Hld.
  assert (∀ m d,
    lastBase64Split (mimeType +:+ ";base64," +:+ data) = Some (m, d) →
    m ≠ EmptyString →
    fileToGenerativePart ("data:" +:+ mimeType +:+ ";base64," +:+ data)
    = Fulfilled (InlineData m d)) as Hstep.
  { intros m d Hs Hm'. unfold fileToGenerativePart, matchDataUrl.
    rewrite prefix_append. change 5 with (String.length "data:").
    rewrite dropChars_append, !hasLineTerminator_append, Hlm, Hld, Hs.
    simpl. by destruct m. }
  split.
  - destruct (lastBase64Split_some mimeType data Hd) as (m & d & Hs & Hlen).
    exists m, d. apply Hstep; [done|].
    intros ->. destruct mimeType; [done|]. simpl in Hlen. lia.
  - intros Hsemi. apply Hstep; [|done]. by apply lastBase64Split_exact.
Qed.

(** X2.  A data URL with a non-empty media type and a non-empty payload,
    both without line terminators, is always accepted; when the payload has
    no semicolon, as a base64 payload has none, the part returned carries
    exactly that media type and that payload. *)
Theorem fileToGenerativePart_data_url (mimeType data : string) :
  mimeType ≠ EmptyString → data ≠ EmptyString →
  hasLineTerminator mimeType = false → hasLineTerminator data = false →
  (∃ m d, fileToGenerativePart ("data:" +:+ mimeType +:+ ";base64," +:+ data)
          = Fulfilled (InlineData m d)) ∧
  (hasChar ";" data = false →
   fileToGenerativePart ("data:" +:+ mimeType +:+ ";base64," +:+ data)
   = Fulfilled (InlineData mimeType data)).
Proof. apply data_url_accepted. Qed.

Lemma fileToGenerativePart_data_url_witness :
  fileToGenerativePart
    ("data:" +:+ "image/jpeg" +:+ ";base64," +:+ "/9j/4AAQSkZJRg==")
  = Fulfilled (InlineData "image/jpeg" "/9j/4AAQSkZJRg==").
Proof.
  apply (proj2 (fileToGenerativePart_data_url "image/jpeg" "/9j/4AAQSkZJRg=="
                  ltac:(discriminate) ltac:(discriminate) eq_refl eq_refl)).
  reflexivity.
Defined.

(** ** The image service *)

Lemma rethrow_Rejected {A : Type} (r : settled A) (e : thrown) :
  rethrow r = Rejected e → ∃ m, e = ErrorObj m None.
Proof.
  destruct r as [v|[message [blockReason|]|]]; simpl; [done|..];
    intros [= <-]; eauto.
Qed.

Lemma rethrowUpscale_Rejected {A : Type} (r : settled A) (e : thrown) :
  rethrowUpscale r = Rejected e → ∃ m, e = ErrorObj m None.
Proof.
  destruct r as [v|[message [blockReason|]|]]; simpl; [done|..];
    intros [= <-]; eauto.
Qed.

(** X3.  An image that the text-to-image call returns is the PNG data URL
    of the non-empty bytes of the first generated image, and when those
    bytes are base64 text (no semicolon, no line terminator)
    [fileToGenerativePart] reads the URL back as that PNG payload, so the
    image can serve as a reference image or be upscaled. *)
Theorem textToImage_output (ai : Models) (prompt : string)
    (aspectRatio : AspectRatio) (url : string) :
  textToImage ai prompt aspectRatio = Fulfilled url →
  ∃ bytes,
    generateImages ai
      (mkImagesRequest "imagen-4.0-generate-001" prompt 1 "image/png"
         aspectRatio) = Fulfilled (mkImagesResponse (Some bytes)) ∧
    bytes ≠ EmptyString ∧
    url = "data:image/png;base64," +:+ bytes ∧
    (hasLineTerminator bytes = false → hasChar ";" bytes = false →
     fileToGenerativePart url = Fulfilled (InlineData "image/png" bytes)).
Proof.
  unfold textToImage.
  destruct (generateImages ai _) as [[[bytes|]]|e] eqn:Hcall;
    unfold imageOfImages; simpl; try done.
  destruct (truthy bytes) eqn:Hb; [|done]. intros [= <-].
  apply truthy_true in Hb. exists bytes. split_and!; try done.
  intros Hlt Hsemi.
  by apply (proj2 (data_url_accepted "image/png" bytes
                     ltac:(discriminate) Hb eq_refl Hlt)).
Qed.

Lemma textToImage_output_witness :
  ∃ bytes,
    "data:image/png;base64,iVBORw0KGgo=" = "data:image/png;base64," +:+ bytes ∧
    bytes ≠ EmptyString.
Proof.
  destruct (textToImage_output (pngProvider "iVBORw0KGgo=") "A red balloon"
              AR_1_1 "data:image/png;base64,iVBORw0KGgo=" eq_refl)
    as (bytes & _ & Hne & Hurl & _).
  by exists bytes.
Defined.

Lemma generateImage_constructor_throws (e : thrown) (prompt : string)
    (aspectRatio : AspectRatio) (referenceImages : list string)
    (base64Image : string) :
  Part_000.generateImage (Rejected e) prompt aspectRatio referenceImages =
    Rejected e ∧
  Part_001.generateImage (Rejected e) prompt aspectRatio referenceImages =
    Rejected e ∧
  upscaleImage (Rejected e) base64Image = Rejected e.
Proof. done. Qed.

Lemma service_Rejected (client : settled Models) (prompt : string)
    (aspectRatio : AspectRatio) (referenceImages : list string)
    (base64Image : string) (e : thrown) :
  Part_000.generateImage client prompt aspectRatio referenceImages = Rejected e ∨
  Part_001.generateImage client prompt aspectRatio referenceImages = Rejected e ∨
  upscaleImage client base64Image = Rejected e →
  client = Rejected e ∨
  ∃ ai m, client = Fulfilled ai ∧ e = ErrorObj m None.
Proof.
  destruct client as [ai|e'].
  - intros H. right. exists ai.
    destruct H as [H|[H|H]].
    + apply rethrow_Rejected in H as [m ->]. by exists m.
    + apply rethrow_Rejected in H as [m ->]. by exists m.
    + apply rethrowUpscale_Rejected in H as [m ->]. by exists m.
  - intros [H|[H|H]]; left; simpl in H; congruence.
Qed.

(** X4.  A rejection of [generateImage] (either copy) or of [upscaleImage]
    has one of two origins.  If constructing the client threw, the
    promise is rejected with the value thrown, unchanged, since the
    constructor runs before the [try].  Otherwise the value is the plain
    [Error] that the [catch] block builds: it has a message, which
    [processQueue] records, and no provider response attached. *)
Theorem service_rejects_with_Error (client : settled Models)
    (prompt : string) (aspectRatio : AspectRatio)
    (referenceImages : list string) (base64Image : string) (e : thrown) :
  (Part_000.generateImage client prompt aspectRatio referenceImages
     = Rejected e ∨
   Part_001.generateImage client prompt aspectRatio referenceImages
     = Rejected e ∨
   upscaleImage client base64Image = Rejected e →
   client = Rejected e ∨
   ∃ ai m, client = Fulfilled ai ∧ e = ErrorObj m None ∧
           errorMessageOf e = m) ∧
  (client = Rejected e →
   Part_000.generateImage client prompt aspectRatio referenceImages
     = Rejected e ∧
   Part_001.generateImage client prompt aspectRatio referenceImages
     = Rejected e ∧
   upscaleImage client base64Image = Rejected e).
Proof.
  split.
  - intros H. apply service_Rejected in H as [H|(ai & m & Hc & ->)];
      [by left|right]. by exists ai, m.
  - intros ->. apply generateImage_constructor_throws.
Qed.

Lemma service_rejects_with_Error_witness :
  Fulfilled (failingProvider NonError) = Rejected
    (ErrorObj "An unknown error occurred during image generation." None) ∨
  ∃ ai m,
    Fulfilled (failingProvider NonError) = Fulfilled ai ∧
    ErrorObj "An unknown error occurred during image generation." None
    = ErrorObj m None ∧
    errorMessageOf
      (ErrorObj "An unknown error occurred during image generation." None)
    = m.
Proof.
  apply (proj1 (service_rejects_with_Error
                  (Fulfilled (failingProvider NonError)) "A red balloon"
                  AR_1_1 [] "data:image/png;base64,AAAA"
                  (ErrorObj
                     "An unknown error occurred during image generation."
                     None))).
  left. reflexivity.
Defined.

(** X5.  Without reference images the two copies of [generateImage] are
    the same function of the client, the prompt and the aspect ratio.  Once
    the client is constructed, the outcome is decided by the text-to-image
    call alone: a response without image bytes, or with empty bytes, is
    reported as the missing-image error; a rejection is reported as
    ['Request blocked: <reason>.'] when the error carries a non-empty block
    reason, with the message of the error when it carries none, and with
    the fixed unknown-error message when the value thrown is no error. *)
Theorem text_to_image_rejection (client : settled Models) (prompt : string)
    (aspectRatio : AspectRatio) :
  Part_000.generateImage client prompt aspectRatio [] =
    Part_001.generateImage client prompt aspectRatio [] ∧
  ∀ ai,
    client = Fulfilled ai →
    match generateImages ai
            (mkImagesRequest "imagen-4.0-generate-001" prompt 1 "image/png"
               aspectRatio) with
    | Fulfilled response =>
        firstImageBytes response = None ∨
        firstImageBytes response = Some EmptyString →
        Part_000.generateImage client prompt aspectRatio [] =
        Rejected (ErrorObj
          "Image generation failed: No image data received from API." None)
    | Rejected e =>
        Part_000.generateImage client prompt aspectRatio [] =
        Rejected (ErrorObj
          match e with
          | ErrorObj message (Some blockReason) =>
              if decide (blockReason = EmptyString) then message
              else "Request blocked: " +:+ blockReason +:+ "."
          | ErrorObj message None => message
          | NonError => "An unknown error occurred during image generation."
          end None)
    end.
Proof.
  split; [done|]. intros ai ->.
  rewrite generateImage_000_constructed. unfold textToImage. simpl.
  destruct (generateImages ai _) as [[bytes]|e]; simpl.
  - unfold imageOfImages. simpl. by intros [->| ->].
  - destruct e as [message [[|c blockReason]|]|]; done.
Qed.

Lemma text_to_image_rejection_witness :
  Part_000.generateImage
    (Fulfilled (failingProvider (ErrorObj "blocked" (Some "SAFETY"))))
    "A red balloon" AR_1_1 [] =
  Rejected (ErrorObj "Request blocked: SAFETY." None).
Proof.
  exact (proj2 (text_to_image_rejection
                  (Fulfilled (failingProvider
                     (ErrorObj "blocked" (Some "SAFETY"))))
                  "A red balloon" AR_1_1)
           (failingProvider (ErrorObj "blocked" (Some "SAFETY"))) eq_refl).
Defined.

Lemma fileToGenerativePart_Rejected (base64 : string) (e : thrown) :
  fileToGenerativePart base64 = Rejected e →
  e = ErrorObj "Invalid base64 string format" None.
Proof.
  unfold fileToGenerativePart. destruct (matchDataUrl base64) as [[m d]|]; [done|].
  by intros [= <-].
Qed.

Lemma fileToGenerativePart_None (base64 : string) :
  matchDataUrl base64 = None →
  fileToGenerativePart base64 =
  Rejected (ErrorObj "Invalid base64 string format" None).
Proof. unfold fileToGenerativePart. by intros ->. Qed.

Lemma mapThrowing_invalid (referenceImages : list string) :
  Exists (λ base64, matchDataUrl base64 = None) referenceImages →
  mapThrowing fileToGenerativePart referenceImages =
  Rejected (ErrorObj "Invalid base64 string format" None).
Proof.
  induction 1 as [base64 l Hbad|base64 l _ IH]; cbn [mapThrowing].
  - by rewrite fileToGenerativePart_None.
  - destruct (fileToGenerativePart base64) as [part|e] eqn:Hpart; simpl.
    + by rewrite IH.
    + by rewrite (fileToGenerativePart_Rejected _ _ Hpart).
Qed.

Lemma generateImage_invalid_first (ai : Models) (prompt : string)
    (aspectRatio : AspectRatio) (first : string) (others : list string) :
  matchDataUrl first = None →
  Part_000.generateImage (Fulfilled ai) prompt aspectRatio (first :: others) =
  Rejected (ErrorObj "Invalid base64 string format" None).
Proof.
  intros Hbad. rewrite generateImage_000_constructed.
  rewrite bool_decide_eq_true_2 by (simpl; lia).
  unfold Part_000.multimodalParts. simpl.
  by rewrite fileToGenerativePart_None.
Qed.

(** X6.  Once the client is constructed, a reference image that is no
    data URL makes [generateImage] of part_001 fail with ['Invalid base64
    string format'] before any provider call, wherever the image is in the
    list; [generateImage] of part_000 fails so only for the first image.
    For every client, constructed or not, the outcome of part_000 does not
    depend on the images after the first at all, malformed or not.  If
    constructing the client throws, both copies reject with what was
    thrown, whatever the images. *)
Theorem invalid_reference_image (ai : Models) (prompt : string)
    (aspectRatio : AspectRatio) :
  (∀ referenceImages,
     Exists (λ base64, matchDataUrl base64 = None) referenceImages →
     Part_001.generateImage (Fulfilled ai) prompt aspectRatio referenceImages =
     Rejected (ErrorObj "Invalid base64 string format" None)) ∧
  (∀ first others,
     matchDataUrl first = None →
     Part_000.generateImage (Fulfilled ai) prompt aspectRatio
       (first :: others) =
     Rejected (ErrorObj "Invalid base64 string format" None)) ∧
  (∀ client first others others',
     Part_000.generateImage client prompt aspectRatio (first :: others) =
     Part_000.generateImage client prompt aspectRatio (first :: others')) ∧
  (∀ e referenceImages,
     Part_000.generateImage (Rejected e) prompt aspectRatio referenceImages =
       Rejected e ∧
     Part_001.generateImage (Rejected e) prompt aspectRatio referenceImages =
       Rejected e).
Proof.
  split_and!.
  - intros referenceImages Hbad. rewrite generateImage_001_constructed.
    rewrite bool_decide_eq_true_2
      by (destruct Hbad; simpl; lia).
    unfold Part_001.multimodalParts.
    by rewrite mapThrowing_invalid.
  - intros first others Hbad. by apply generateImage_invalid_first.
  - intros [ai'|e] first others others'; [|done].
    rewrite !generateImage_000_constructed.
    by rewrite !bool_decide_eq_true_2 by (simpl; lia).
  - done.
Qed.

Lemma invalid_reference_image_witness :
  Part_001.generateImage (Fulfilled (pngProvider "iVBORw0KGgo="))
    "merge the two" AR_1_1 ["data:image/png;base64,AAAA"; "blob:1234"] =
  Rejected (ErrorObj "Invalid base64 string format" None).
Proof.
  apply (proj1 (invalid_reference_image (pngProvider "iVBORw0KGgo=")
                  "merge the two" AR_1_1)).
  apply Exists_cons_tl, Exists_cons_hd. reflexivity.
Defined.

(** X7.  With reference images the aspect ratio plays no part and the
    text-to-image model is not called: the outcome is the same for every
    aspect ratio and for every provider with the same multimodal call.
    Without reference images the multimodal model is not called: the
    outcome is the same for every provider with the same text-to-image
    call.  This holds for both copies of the service; and for every
    client, constructed or not, the aspect ratio plays no part as soon as
    there is a reference image. *)
Theorem aspect_ratio_only_without_references (ai ai' : Models)
    (prompt : string) (aspectRatio aspectRatio' : AspectRatio)
    (referenceImages : list string) :
  (referenceImages ≠ [] →
   (∀ req, generateContent ai req = generateContent ai' req) →
   Part_000.generateImage (Fulfilled ai) prompt aspectRatio referenceImages =
     Part_000.generateImage (Fulfilled ai') prompt aspectRatio'
       referenceImages ∧
   Part_001.generateImage (Fulfilled ai) prompt aspectRatio referenceImages =
     Part_001.generateImage (Fulfilled ai') prompt aspectRatio'
       referenceImages) ∧
  ((∀ req, generateImages ai req = generateImages ai' req) →
   Part_000.generateImage (Fulfilled ai) prompt aspectRatio [] =
     Part_000.generateImage (Fulfilled ai') prompt aspectRatio [] ∧
   Part_001.generateImage (Fulfilled ai) prompt aspectRatio [] =
     Part_001.generateImage (Fulfilled ai') prompt aspectRatio []) ∧
  (referenceImages ≠ [] →
   ∀ client,
     Part_000.generateImage client prompt aspectRatio referenceImages =
       Part_000.generateImage client prompt aspectRatio' referenceImages ∧
     Part_001.generateImage client prompt aspectRatio referenceImages =
       Part_001.generateImage client prompt aspectRatio' referenceImages).
Proof.
  split_and!.
  - intros Hne Hsame.
    rewrite !generateImage_000_constructed, !generateImage_001_constructed.
    rewrite !bool_decide_eq_true_2
      by (destruct referenceImages; simpl; [done|lia]).
    split.
    + destruct (Part_000.multimodalParts prompt referenceImages); simpl;
        [by rewrite Hsame|done].
    + destruct (Part_001.multimodalParts prompt referenceImages); simpl;
        [by rewrite Hsame|done].
  - intros Hsame.
    rewrite !generateImage_000_constructed, !generateImage_001_constructed.
    unfold textToImage. simpl. by rewrite Hsame.
  - intros Hne [ai0|e]; [|done].
    rewrite !generateImage_000_constructed, !generateImage_001_constructed.
    by rewrite !bool_decide_eq_true_2
      by (destruct referenceImages; simpl; [done|lia]).
Qed.

Lemma aspect_ratio_only_without_references_witness :
  Part_000.generateImage
    (Fulfilled (contentProvider [InlineData "image/png" "QUJD"]))
    "make it blue" AR_1_1 ["data:image/png;base64,AAAA"] =
  Part_000.generateImage
    (Fulfilled (contentProvider [InlineData "image/png" "QUJD"]))
    "make it blue" AR_16_9 ["data:image/png;base64,AAAA"].
Proof.
  refine (proj1 (proj1 (aspect_ratio_only_without_references
            (contentProvider [InlineData "image/png" "QUJD"])
            (contentProvider [InlineData "image/png" "QUJD"])
            "make it blue" AR_1_1 AR_16_9 ["data:image/png;base64,AAAA"])
            _ _)).
  - discriminate.
  - reflexivity.
Defined.

Lemma list_find_inline (parts : list Part) :
  match snd <$> list_find (λ p, hasInlineData p = true) parts with
  | Some (InlineData mimeType data) =>
      ∃ texts rest,
        parts = texts ++ InlineData mimeType data :: rest ∧
        Forall (λ p, hasInlineData p = false) texts
  | Some (Text _) => False
  | None => Forall (λ p, hasInlineData p = false) parts
  end.
Proof.
  destruct (list_find _ parts) as [[n p]|] eqn:Hfind; simpl.
  - apply list_find_Some in Hfind as (Hn & Hp & Hbefore).
    destruct p as [mimeType data|text]; [|done].
    exists (take n parts), (drop (S n) parts). split.
    + by rewrite take_drop_middle.
    + apply Forall_forall. intros x Hx.
      apply list_elem_of_lookup in Hx as [k Hk].
      pose proof (lookup_lt_Some _ _ _ Hk) as Hlt.
      rewrite length_take in Hlt. rewrite lookup_take_lt in Hk by lia.
      apply not_true_is_false. eapply Hbefore; [done|lia].
  - apply list_find_None in Hfind. eapply Forall_impl; [done|].
    intros x Hx. by apply not_true_is_false.
Qed.

(** X8.  Of a multimodal response [generateImage] uses the first part of
    the first candidate that carries inline data, skipping the text parts
    before it, and returns the data URL of its media type and bytes; it
    fails with its no-image message exactly when the response has no
    candidate parts or none of them carries inline data. *)
Theorem imageOfContent_first_inline (response : ContentResponse) :
  match imageOfContent response with
  | Fulfilled url =>
      ∃ texts mimeType bytes rest,
        firstCandidateParts response =
          Some (texts ++ InlineData mimeType bytes :: rest) ∧
        Forall (λ p, hasInlineData p = false) texts ∧
        url = "data:" +:+ mimeType +:+ ";base64," +:+ bytes
  | Rejected e =>
      e = ErrorObj
            "Image generation failed: No image data received from multimodal API."
            None ∧
      (firstCandidateParts response = None ∨
       ∃ parts, firstCandidateParts response = Some parts ∧
                Forall (λ p, hasInlineData p = false) parts)
  end.
Proof.
  unfold imageOfContent.
  destruct (firstCandidateParts response) as [parts|]; [|by split; [|left]].
  pose proof (list_find_inline parts) as Hfind.
  destruct (snd <$> list_find _ parts) as [[mimeType bytes|text]|]; [|done|].
  - destruct Hfind as (texts & rest & -> & Htexts).
    by exists texts, mimeType, bytes, rest.
  - split; [done|]. right. by exists parts.
Qed.

(** ** Upscaling *)

(** X9.  If constructing the client throws, [upscaleImage] rejects with
    what was thrown.  Once the client is constructed, it fails with
    ['Invalid base64 string format'], without a provider call, when its
    argument is no data URL.  When it returns an image, the client was
    constructed, the argument was a data URL, the provider was sent exactly
    two parts, that image and the fixed upscale instruction, and the image
    returned is the data URL of the first inline part of the response. *)
Theorem upscaleImage_request (client : settled Models)
    (base64Image : string) :
  (∀ e, client = Rejected e → upscaleImage client base64Image = Rejected e) ∧
  (∀ ai, client = Fulfilled ai → matchDataUrl base64Image = None →
   upscaleImage client base64Image =
   Rejected (ErrorObj "Invalid base64 string format" None)) ∧
  (∀ url,
     upscaleImage client base64Image = Fulfilled url →
     ∃ ai mimeType data response texts outType outBytes rest,
       client = Fulfilled ai ∧
       base64Image = "data:" +:+ mimeType +:+ ";base64," +:+ data ∧
       generateContent ai
         (multimodalRequest
            [InlineData mimeType data; Text upscaleInstruction]) =
         Fulfilled response ∧
       firstCandidateParts response =
         Some (texts ++ InlineData outType outBytes :: rest) ∧
       Forall (λ p, hasInlineData p = false) texts ∧
       url = "data:" +:+ outType +:+ ";base64," +:+ outBytes).
Proof.
  split_and!.
  - by intros e ->.
  - intros ai -> Hbad. unfold upscaleImage. simpl.
    by rewrite fileToGenerativePart_None.
  - intros url. destruct client as [ai|e]; [|done].
    unfold upscaleImage. simpl.
    pose proof (fileToGenerativePart_parts base64Image) as Hsound.
    destruct (fileToGenerativePart base64Image) as [part|e]; [|done].
    destruct Hsound as (mimeType & data & -> & Hurl & _). simpl.
    destruct (generateContent ai _) as [response|e] eqn:Hcall; [|done].
    simpl. unfold upscaledOfContent.
    destruct (firstCandidateParts response) as [parts|] eqn:Hparts; [|done].
    pose proof (list_find_inline parts) as Hfind.
    destruct (snd <$> list_find _ parts) as [[outType outBytes|text]|];
      [|done..].
    destruct Hfind as (texts & rest & -> & Htexts). simpl. intros [= <-].
    by exists ai, mimeType, data, response, texts, outType, outBytes, rest.
Qed.

Lemma upscaleImage_request_witness :
  upscaleImage (Fulfilled (pngProvider "iVBORw0KGgo=")) "blob:1234" =
  Rejected (ErrorObj "Invalid base64 string format" None).
Proof.
  apply (proj1 (proj2 (upscaleImage_request
                         (Fulfilled (pngProvider "iVBORw0KGgo=")) "blob:1234"))
           (pngProvider "iVBORw0KGgo=") eq_refl).
  reflexivity.
Defined.

(** X10.  A click on the upscale button ends with the spinner off and the
    job queue untouched.  If [upscaleImage] returns an image, the gallery
    is updated by [handleUpscaleImage] for the identifier of the item shown
    and no error is displayed.  If it fails, the application state is
    unchanged and the modal displays ['Upscale failed: '] followed by the
    message of the error, or by ['An unknown error occurred.'] when the
    value thrown is no error, which only a throwing client constructor can
    cause: once the client is constructed, the value is an error with a
    message. *)
Theorem handleUpscaleClick_outcome (client : settled Models)
    (item : GalleryItem.t) (m : ModalState) (st : AppState) :
  isUpscaling (handleUpscaleClick client item m st).1 = false ∧
  queue (handleUpscaleClick client item m st).2 = queue st ∧
  match upscaleImage client (GalleryItem.src item) with
  | Fulfilled upscaledSrc =>
      (handleUpscaleClick client item m st).2 =
        handleUpscaleImage (GalleryItem.id item) upscaledSrc st ∧
      modalError (handleUpscaleClick client item m st).1 = None
  | Rejected e =>
      (handleUpscaleClick client item m st).2 = st ∧
      modalError (handleUpscaleClick client item m st).1 =
        Some ("Upscale failed: " +:+
              match e with
              | ErrorObj message _ => message
              | NonError => "An unknown error occurred."
              end) ∧
      (client = Rejected e ∨
       ∃ ai message, client = Fulfilled ai ∧ e = ErrorObj message None)
  end.
Proof.
  unfold handleUpscaleClick.
  destruct (upscaleImage client (GalleryItem.src item)) as [url|e] eqn:Hup;
    simpl.
  - done.
  - split_and!; try done.
    apply (service_Rejected client EmptyString AR_1_1 []
             (GalleryItem.src item) e).
    by right; right.
Qed.

(** ** The reference image panel *)

Lemma filter_index_all {A : Type} (h : nat → nat) (n : nat) (l : list A) :
  (∀ i, h i ≠ n) →
  snd <$> filter (λ p, p.1 ≠ n) (imap (λ i x, (h i, x)) l) = l.
Proof.
  revert h. induction l as [|a l IH]; intros h Hh; [done|].
  rewrite imap_cons, filter_cons_True by apply Hh.
  rewrite fmap_cons. simpl. f_equal.
  apply (IH (h ∘ S)). intros i. apply Hh.
Qed.

Lemma filter_index_delete {A : Type} (g : nat → nat) (index : nat)
    (l : list A) :
  (∀ i j, g i = g j → i = j) →
  snd <$> filter (λ p, p.1 ≠ g index) (imap (λ i x, (g i, x)) l) =
  take index l ++ drop (S index) l.
Proof.
  revert g index. induction l as [|a l IH]; intros g index Hg.
  { by destruct index. }
  rewrite imap_cons. destruct index as [|index].
  - rewrite filter_cons_False by (simpl; intros H; by apply H).
    simpl take. simpl drop. rewrite drop_0.
    apply (filter_index_all (g ∘ S) (g 0)).
    intros i Hi. by apply Hg in Hi.
  - rewrite filter_cons_True by (simpl; intros Hi; by apply Hg in Hi).
    rewrite fmap_cons. simpl. f_equal.
    apply (IH (g ∘ S) index). intros i j Hij. apply Hg in Hij. lia.
Qed.

(** X11.  [handleRemoveImage] removes the staged image at the given
    position and keeps the others in order; a position past the end leaves
    the list as it is, a position inside it shortens the list by one. *)
Theorem handleRemoveImage_position (images : list string) (index : nat) :
  handleRemoveImage images index =
    take index images ++ drop (S index) images ∧
  (length images ≤ index → handleRemoveImage images index = images) ∧
  (index < length images →
   S (length (handleRemoveImage images index)) = length images).
Proof.
  assert (handleRemoveImage images index =
          take index images ++ drop (S index) images) as Heq.
  { unfold handleRemoveImage. by apply (filter_index_delete id index images). }
  rewrite Heq. split_and!; [done| |].
  - intros Hge. rewrite take_ge, drop_ge by lia. by rewrite app_nil_r.
  - intros Hlt. rewrite length_app, length_take, length_drop. lia.
Qed.

Lemma handleRemoveImage_position_witness :
  handleRemoveImage ["a"; "b"; "c"] 7 = ["a"; "b"; "c"] ∧
  S (length (handleRemoveImage ["a"; "b"; "c"] 1)) = 3.
Proof.
  destruct (handleRemoveImage_position ["a"; "b"; "c"] 7) as (_ & H1 & _).
  destruct (handleRemoveImage_position ["a"; "b"; "c"] 1) as (_ & _ & H2).
  split; [apply H1|apply H2]; simpl; lia.
Defined.

Lemma promise_all_Rejected {A : Type} (ps : list (settled A)) :
  Exists (λ p, ∃ e, p = Rejected e) ps → ∃ e, promise_all ps = Rejected e.
Proof.
  induction 1 as [p ps [e ->]|[v|e'] ps _ [e IH]]; simpl; eauto.
  rewrite IH. eauto.
Qed.

(** X12.  The edges of an upload.  Without a file list nothing is handed
    to the panel.  If the read of one of the files kept under the cap
    fails, nothing is handed over either, not even the files that were
    read.  Files beyond the cap are not read: they do not influence the
    outcome.  Whatever is handed over begins with the images staged
    before, unchanged and in order. *)
Theorem handleImageUpload_edges (images : list string) :
  handleImageUpload images None = None ∧
  (∀ files : list File,
     length images ≤ 4 →
     Exists (λ p, ∃ e, p = Rejected e) (take (4 - length images) files) →
     handleImageUpload images (Some files) = None) ∧
  (∀ files files' : list File,
     length images ≤ 4 →
     take (4 - length images) files = take (4 - length images) files' →
     handleImageUpload images (Some files) =
     handleImageUpload images (Some files')) ∧
  (∀ targetFiles result,
     handleImageUpload images targetFiles = Some result →
     images `prefix_of` result).
Proof.
  assert (∀ files : list File, length images ≤ 4 →
            slice0 (MAX_IMAGES - Z.of_nat (length images)) files =
            take (4 - length images) files) as Hslice.
  { intros files Hc. unfold MAX_IMAGES.
    replace (4 - Z.of_nat (length images))%Z
      with (Z.of_nat (4 - length images)) by lia.
    apply slice0_of_nat. }
  split_and!; [done| | |].
  - intros files Hc Hbad. unfold handleImageUpload. rewrite Hslice by done.
    destruct (promise_all_Rejected _ Hbad) as [e ->]. done.
  - intros files files' Hc Hsame. unfold handleImageUpload.
    by rewrite !Hslice, Hsame by done.
  - intros [files|] result; [|done]. unfold handleImageUpload.
    destruct (promise_all _) as [newImages|e]; [|done].
    intros [= <-]. by apply prefix_app_r.
Qed.

Lemma handleImageUpload_edges_witness :
  handleImageUpload ["a"; "b"; "c"]
    (Some [Rejected NonError; Fulfilled "d"]) = None ∧
  handleImageUpload ["a"; "b"; "c"]
    (Some [Fulfilled "d"; Rejected NonError]) =
  handleImageUpload ["a"; "b"; "c"] (Some [Fulfilled "d"]).
Proof.
  destruct (handleImageUpload_edges ["a"; "b"; "c"]) as (_ & H1 & H2 & _).
  split.
  - apply H1; [simpl; lia|]. apply Exists_cons_hd. by exists NonError.
  - apply H2; [simpl; lia|reflexivity].
Defined.

(** X13.  The cap is computed with [slice(0, MAX_IMAGES - images.length)]:
    when the panel is given more than four images, the bound is negative
    and [slice] then drops that many files from the end instead of keeping
    none, so all but the last [images.length - 4] files are added. *)
Theorem handleImageUpload_over_capacity (images newImages : list string) :
  4 < length images →
  handleImageUpload images (Some (Fulfilled <$> newImages)) =
  Some (images ++
        take (length newImages - (length images - 4)) newImages).
Proof.
  intros Hc. unfold handleImageUpload, MAX_IMAGES, slice0.
  destruct (Z.ltb_spec (4 - Z.of_nat (length images)) 0) as [_|Hge]; [|lia].
  rewrite length_fmap.
  replace (Z.to_nat (Z.max (Z.of_nat (length newImages) +
                            (4 - Z.of_nat (length images))) 0))
    with (length newImages - (length images - 4)) by lia.
  rewrite <- fmap_take. unfold File. by rewrite promise_all_Fulfilled.
Qed.

Lemma handleImageUpload_over_capacity_witness :
  handleImageUpload ["a"; "b"; "c"; "d"; "e"]
    (Some (Fulfilled <$> ["f"; "g"; "h"])) =
  Some ["a"; "b"; "c"; "d"; "e"; "f"; "g"].
Proof.
  apply (handleImageUpload_over_capacity ["a"; "b"; "c"; "d"; "e"]
           ["f"; "g"; "h"]).
  simpl. lia.
Defined.

(** ** The submit handler *)

Lemma trimStart_blank (s : string) : isBlank s = true → trimStart s = EmptyString.
Proof.
  induction s as [|c s IH]; [done|]. simpl.
  intros [Hc Hs]%andb_true_iff. rewrite Hc. by apply IH.
Qed.

Lemma isBlank_trimStart (s : string) : isBlank (trimStart s) = isBlank s.
Proof.
  induction s as [|c s IH]; [done|]. simpl.
  destruct (isWhiteSpace c) eqn:Hc; simpl; [done|by rewrite Hc].
Qed.

Lemma isBlank_rev_app (s t : string) :
  isBlank (String.rev_app s t) = isBlank s && isBlank t.
Proof.
  revert t. induction s as [|c s IH]; intros t; [done|].
  simpl. rewrite IH. simpl. by destruct (isWhiteSpace c), (isBlank s).
Qed.

Lemma rev_app_empty (s t : string) :
  String.rev_app s t = EmptyString → s = EmptyString ∧ t = EmptyString.
Proof.
  revert t. induction s as [|c s IH]; intros t; [done|].
  simpl. intros H. by destruct (IH _ H).
Qed.

Lemma trim_blank_iff (s : string) :
  trim s = EmptyString ↔ isBlank s = true.
Proof.
  unfold trim, trimEnd, String.rev. split.
  - intros H. apply rev_app_empty in H as [H _].
    rewrite <- isBlank_trimStart.
    assert (isBlank (String.rev_app (trimStart s) EmptyString) = true) as Hb.
    { rewrite <- isBlank_trimStart. by rewrite H. }
    rewrite isBlank_rev_app in Hb. by apply andb_true_iff in Hb as [Hb _].
  - intros H. by rewrite (trimStart_blank s H).
Qed.

(** X14.  [handleSubmit] acts exactly when the prompt has a character that
    is not white space and no submission is under way.  Then, if the
    identifier is obtained, the job appended to the queue carries the
    prompt as typed, surrounding white space included, and the chosen
    aspect ratio, and the form keeps the aspect ratio and clears the
    prompt; if obtaining the identifier throws, the queue is untouched and
    the prompt is kept. *)
Theorem handleSubmit_cases (form : FormState) (uuid : settled string)
    (st : AppState) :
  (isBlank (prompt form) = true ∨ isAdding form = true →
   handleSubmit form uuid st = (form, st)) ∧
  (isBlank (prompt form) = false → isAdding form = false →
   match uuid with
   | Fulfilled u =>
       handleSubmit form uuid st =
         (mkForm EmptyString (aspectRatio form) false,
          handleAddToQueue (prompt form) (aspectRatio form) u st) ∧
       last (queue (handleSubmit form uuid st).2) =
         Some (Job.mk u (prompt form) (referenceImages st) (aspectRatio form)
                 pending None)
   | Rejected _ =>
       handleSubmit form uuid st =
         (mkForm (prompt form) (aspectRatio form) false, st)
   end).
Proof.
  unfold handleSubmit. split.
  - intros [Hblank|Hadding].
    + apply trim_blank_iff in Hblank. by rewrite Hblank.
    + rewrite Hadding. by rewrite andb_false_r.
  - intros Hblank Hadding. rewrite Hadding.
    destruct (trim (prompt form)) as [|c t] eqn:Htrim.
    { apply trim_blank_iff in Htrim. congruence. }
    simpl. destruct uuid as [u|e]; [|done].
    split; [done|]. simpl. unfold appendJob. by rewrite last_snoc.
Qed.

Lemma handleSubmit_cases_witness :
  last (queue (handleSubmit (mkForm "  a red balloon " AR_4_3 false)
                 (Fulfilled "job-1") initialApp).2) =
  Some (Job.mk "job-1" "  a red balloon " [] AR_4_3 pending None).
Proof.
  exact (proj2 (proj2 (handleSubmit_cases
           (mkForm "  a red balloon " AR_4_3 false) (Fulfilled "job-1")
           initialApp) eq_refl eq_refl)).
Defined.

(** ** Invariants of the queue along a run *)

Lemma wellFormedJob_exec (s : System) (e : event) :
  Inv s → stagingInv s → enabled s e →
  Forall wellFormedJob (queue (app s)) →
  Forall wellFormedJob (queue (app (exec e s))).
Proof.
  intros HI [Hc _] Hen Hwf.
  destruct e as [saved|p ar u| |k outcome uuid|itemId newSrc|item| |fs|k|index];
    simpl; try done.
  - apply Forall_app. split; [done|]. apply Forall_singleton. by split.
  - destruct (processQueue_start_cases (app s))
      as [->|(job & pre & post & _ & Hq & Hst & _ & ->)]; [done|].
    simpl. destruct HI as [Hnd _]. rewrite Hq in Hnd, Hwf.
    destruct (NoDup_ids_split _ _ _ Hnd) as [Hpre Hpost].
    rewrite Hq, markProcessing_byId, byId_at by done.
    apply Forall_app in Hwf as [Hwf1 Hwf2].
    apply Forall_cons in Hwf2 as [[Hj Hlen] Hwf2].
    apply Forall_app. split; [done|]. apply Forall_cons. split; [|done].
    rewrite Hst in Hj. by split.
  - destruct Hen as [job Hk]. rewrite Hk.
    destruct (Inv_inflight s k job HI Hk)
      as (_ & _ & _ & _ & pre & post & Hq & Hpre & Hpost).
    rewrite Hq in Hwf. apply Forall_app in Hwf as [Hwf1 Hwf2].
    apply Forall_cons in Hwf2 as [[Hj Hlen] Hwf2].
    destruct (processQueue_settle_cases job outcome uuid (app s))
      as [(? & ? & _ & _ & ->)|(? & _ & ->)]; simpl; rewrite Hq.
    + pose proof (markCompleted_at pre post (Job.with_status processing job)
                    Hpre Hpost) as Hdone.
      simpl in Hdone. rewrite Hdone. apply Forall_app. by split.
    + rewrite markFailed_byId, byId_at by done.
      apply Forall_app. split; [done|]. apply Forall_cons. split; [|done].
      split; [by eexists|done].
  - by destruct (uploads s !! k).
Qed.

Lemma wellFormedJob_run (tr : list event) (s : System) :
  Inv s → stagingInv s → admissible tr s →
  Forall wellFormedJob (queue (app s)) →
  Forall wellFormedJob (queue (app (run tr s))).
Proof.
  revert s. induction tr as [|e tr IH]; intros s HI Hs Had Hwf; [done|].
  destruct Had as [Hen Had]. simpl.
  apply IH; [by apply Inv_exec|by apply stagingInv_exec|done|].
  by apply wellFormedJob_exec.
Qed.

(** X15.  In every state of a run each queued job is pending or processing
    with no error recorded, or failed with an error message; no queued job
    ever has the status [completed]; and each carries at most four
    reference images. *)
Theorem queued_jobs_well_formed (tr : list event) :
  admissible tr initial →
  Forall wellFormedJob (queue (app (run tr initial))).
Proof.
  intros Had. apply wellFormedJob_run; try done.
  - apply Inv_initial.
  - split; [simpl; lia|constructor].
Qed.

Lemma queued_jobs_well_formed_witness :
  Forall wellFormedJob (queue (app (run two_jobs_one_tick initial))).
Proof.
  exact (queued_jobs_well_formed two_jobs_one_tick
           two_jobs_one_tick_admissible).
Defined.

Lemma existsb_processing (q : list Job.t) :
  existsb (λ j, bool_decide (Job.status j = processing)) q = true ↔
  ∃ j, j ∈ q ∧ Job.status j = processing.
Proof.
  rewrite existsb_exists. split; intros (j & Hj & Hst); exists j.
  - split; [by apply list_elem_of_In|by apply bool_decide_eq_true in Hst].
  - split; [by apply list_elem_of_In|by apply bool_decide_eq_true].
Qed.

(** X16.  The processing indicator that the header receives,
    [isProcessingRef.current || queue.some(j => j.status === 'processing')],
    is in every state of a run the busy flag itself: a job is shown as
    processing exactly while the flag is up. *)
Theorem header_indicator (tr : list event) :
  admissible tr initial →
  headerIsProcessing (app (run tr initial)) =
    isProcessingRef (app (run tr initial)) ∧
  (isProcessingRef (app (run tr initial)) = true ↔
   ∃ j, j ∈ queue (app (run tr initial)) ∧ Job.status j = processing).
Proof.
  intros Had. pose proof (Inv_run tr initial Inv_initial Had) as [_ Hfl].
  set (s := run tr initial) in *. unfold flightInv in Hfl.
  unfold headerIsProcessing.
  destruct (isProcessingRef (app s)) eqn:Hbusy.
  - split; [done|]. split; [|done]. intros _.
    destruct Hfl as (job & pre & post & _ & Hq & _).
    exists (Job.with_status processing job). split; [|done].
    rewrite Hq. apply elem_of_app. right. left.
  - destruct Hfl as [_ Hall]. rewrite Forall_forall in Hall.
    assert (¬ ∃ j, j ∈ queue (app s) ∧ Job.status j = processing) as Hnone.
    { intros (j & Hj & Hst). by destruct (Hall j Hj). }
    split.
    + simpl. apply not_true_is_false. intros H.
      by apply existsb_processing in H.
    + split; [done|]. intros H. by destruct Hnone.
Qed.

Lemma header_indicator_witness :
  headerIsProcessing (app (run two_jobs_one_tick initial)) =
  isProcessingRef (app (run two_jobs_one_tick initial)).
Proof.
  exact (proj1 (header_indicator two_jobs_one_tick
                  two_jobs_one_tick_admissible)).
Defined.

Lemma jobCore_byId (i : string) (f : Job.t → Job.t) (q : list Job.t) :
  (∀ j, jobCore (f j) = jobCore j) →
  jobCore <$> (byId i f <$> q) = jobCore <$> q.
Proof.
  intros Hf. rewrite <- list_fmap_compose. apply list_fmap_ext.
  intros _ j _. simpl. unfold byId. destruct (decide _); auto.
Qed.

Lemma jobCore_exec (e : event) (s : System) :
  sublist (jobCore <$> queue (app (exec e s)))
          ((jobCore <$> queue (app s)) ++ submittedCores [e] s).
Proof.
  destruct e as [saved|p ar u| |k outcome uuid|itemId newSrc|item| |fs|k|index];
    simpl; rewrite ?app_nil_r; try done.
  - unfold appendJob. by rewrite fmap_app.
  - destruct (processQueue_start_cases (app s))
      as [->|(job & pre & post & _ & _ & _ & _ & ->)]; [done|].
    simpl. by rewrite markProcessing_byId, jobCore_byId.
  - destruct (inflight s !! k) as [job|]; [|done].
    destruct (processQueue_settle_cases job outcome uuid (app s))
      as [(? & ? & _ & _ & ->)|(? & _ & ->)]; simpl.
    + apply fmap_sublist, markCompleted_sublist.
    + by rewrite markFailed_byId, jobCore_byId.
  - by destruct (uploads s !! k).
Qed.

Lemma submittedCores_cons (e : event) (tr : list event) (s : System) :
  submittedCores (e :: tr) s =
  submittedCores [e] s ++ submittedCores tr (exec e s).
Proof. simpl. by rewrite app_nil_r. Qed.

Lemma jobCore_run (tr : list event) (s : System) :
  sublist (jobCore <$> queue (app (run tr s)))
          ((jobCore <$> queue (app s)) ++ submittedCores tr s).
Proof.
  revert s. induction tr as [|e tr IH]; intros s.
  - simpl. by rewrite app_nil_r.
  - rewrite submittedCores_cons. cbn [run]. rewrite app_assoc.
    etrans; [apply IH|]. apply sublist_app; [|done]. apply jobCore_exec.
Qed.

(** X17.  A queued job is a snapshot: along every run the identifier,
    prompt, reference images and aspect ratio of the queued jobs are, in
    queue order, among those the jobs were submitted with, in submission
    order.  What is staged, removed or uploaded after a submission does
    not reach a queued job, and the processor changes only status and
    error. *)
Theorem queued_jobs_are_snapshots (tr : list event) :
  sublist (jobCore <$> queue (app (run tr initial)))
          (submittedCores tr initial).
Proof. apply (jobCore_run tr initial). Qed.

Lemma itemCore_upscale (itemId newSrc : string) (g : list GalleryItem.t) :
  itemCore <$>
    ((λ item, if decide (GalleryItem.id item = itemId)
              then GalleryItem.with_src newSrc item else item) <$> g) =
  itemCore <$> g.
Proof.
  rewrite <- list_fmap_compose. apply list_fmap_ext.
  intros _ item _. simpl. by destruct (decide _).
Qed.

Lemma gallery_exec (e : event) (s : System) :
  notLoad e →
  (itemCore <$> gallery (app s)) `suffix_of`
  (itemCore <$> gallery (app (exec e s))).
Proof.
  intros Hload.
  destruct e as [saved|p ar u| |k outcome uuid|itemId newSrc|item| |fs|k|index];
    simpl; try done.
  - destruct (processQueue_start_cases (app s))
      as [->|(job & pre & post & _ & _ & _ & _ & ->)]; done.
  - destruct (inflight s !! k) as [job|]; [|done].
    destruct (processQueue_settle_cases job outcome uuid (app s))
      as [(? & ? & _ & _ & ->)|(? & _ & ->)]; simpl; [|done].
    by apply suffix_cons_r.
  - by rewrite itemCore_upscale.
  - by destruct (uploads s !! k).
Qed.

(** X18.  Apart from the load of the saved gallery no event removes or
    reorders a gallery item or changes its identifier or prompt: along a
    run without a load, the identifiers and prompts of the gallery of the
    start are the tail of those of the gallery of the end.  New items
    only enter at the front. *)
Theorem gallery_only_grows (tr : list event) (s : System) :
  Forall notLoad tr →
  (itemCore <$> gallery (app s)) `suffix_of`
  (itemCore <$> gallery (app (run tr s))).
Proof.
  revert s. induction tr as [|e tr IH]; intros s Htr; [done|].
  apply Forall_cons in Htr as [He Htr]. simpl.
  etrans; [by apply gallery_exec|by apply IH].
Qed.

Lemma gallery_only_grows_witness :
  (itemCore <$> gallery initialApp) `suffix_of`
  (itemCore <$> gallery (app (run two_jobs_one_tick initial))).
Proof.
  apply (gallery_only_grows two_jobs_one_tick initial).
  repeat constructor.
Defined.

Lemma length_byId (i : string) (f : Job.t → Job.t) (q : list Job.t) :
  length (byId i f <$> q) = length q.
Proof. apply length_fmap. Qed.

Lemma conservation_exec (e : event) (s : System) :
  Inv s → enabled s e →
  length (queue (app (exec e s))) + completions [e] s =
  length (queue (app s)) + length (submitted [e]).
Proof.
  intros HI Hen.
  destruct e as [saved|p ar u| |k outcome uuid|itemId newSrc|item| |fs|k|index];
    simpl; try lia.
  - unfold appendJob. rewrite length_app. simpl. lia.
  - destruct (processQueue_start_cases (app s))
      as [->|(job & pre & post & _ & _ & _ & _ & ->)]; [simpl; lia|].
    simpl. rewrite markProcessing_byId, length_byId. lia.
  - destruct Hen as [job Hk]. rewrite Hk.
    destruct (Inv_inflight s k job HI Hk)
      as (_ & _ & _ & _ & pre & post & Hq & Hpre & Hpost).
    destruct outcome as [imageUrl|error]; [destruct uuid as [newId|error]|];
      simpl.
    + pose proof (markCompleted_at pre post (Job.with_status processing job)
                    Hpre Hpost) as Hdone.
      simpl in Hdone. rewrite Hq, Hdone, !length_app. simpl. lia.
    + rewrite markFailed_byId, length_byId. lia.
    + rewrite markFailed_byId, length_byId. lia.
  - destruct (uploads s !! k); simpl; lia.
Qed.

Lemma conservation_run (tr : list event) (s : System) :
  Inv s → admissible tr s →
  length (queue (app (run tr s))) + completions tr s =
  length (queue (app s)) + length (submitted tr).
Proof.
  revert s. induction tr as [|e tr IH]; intros s HI Had; [simpl; lia|].
  destruct Had as [Hen Had].
  pose proof (IH (exec e s) (Inv_exec s e HI Hen) Had) as Hrest.
  pose proof (conservation_exec e s HI Hen) as Hstep.
  rewrite submitted_cons, length_app.
  cbn [run completions] in *. lia.
Qed.

Lemma gallery_count_exec (e : event) (s : System) :
  enabled s e → notLoad e →
  length (gallery (app (exec e s))) =
  length (gallery (app s)) + completions [e] s.
Proof.
  intros Hen Hload.
  destruct e as [saved|p ar u| |k outcome uuid|itemId newSrc|item| |fs|k|index];
    simpl; try done; try lia.
  - destruct (processQueue_start_cases (app s))
      as [->|(job & pre & post & _ & _ & _ & _ & ->)]; simpl; lia.
  - destruct Hen as [job Hk]. rewrite Hk.
    destruct outcome as [imageUrl|error]; [destruct uuid as [newId|error]|];
      simpl; lia.
  - rewrite length_fmap. lia.
  - destruct (uploads s !! k); simpl; lia.
Qed.

Lemma gallery_count_run (tr : list event) (s : System) :
  admissible tr s → Forall notLoad tr →
  length (gallery (app (run tr s))) =
  length (gallery (app s)) + completions tr s.
Proof.
  revert s. induction tr as [|e tr IH]; intros s Had Hload; [simpl; lia|].
  destruct Had as [Hen Had]. apply Forall_cons in Hload as [He Hload].
  pose proof (IH (exec e s) Had Hload) as Hrest.
  pose proof (gallery_count_exec e s Hen He) as Hstep.
  cbn [run completions] in *. lia.
Qed.

(** X19.  No submission is lost or counted twice.  At every point of a run
    the number of queued jobs plus the number of jobs moved to the gallery
    (the settlements in which the provider returned an image and the
    identifier of the new item was obtained) is the number of jobs
    submitted.  In a run without a load of the saved gallery each such
    settlement is one gallery item, so the length of the queue plus the
    length of the gallery is the number of jobs submitted: a job leaves
    the queue only by entering the gallery. *)
Theorem jobs_are_conserved (tr : list event) :
  admissible tr initial →
  length (queue (app (run tr initial))) + completions tr initial =
    length (submitted tr) ∧
  (Forall notLoad tr →
   length (gallery (app (run tr initial))) = completions tr initial ∧
   length (queue (app (run tr initial))) +
     length (gallery (app (run tr initial))) = length (submitted tr)).
Proof.
  intros Had.
  pose proof (conservation_run tr initial Inv_initial Had) as Hq.
  simpl in Hq. split; [done|]. intros Hload.
  pose proof (gallery_count_run tr initial Had Hload) as Hg.
  simpl in Hg. lia.
Qed.

Lemma jobs_are_conserved_witness :
  length (queue (app (run two_jobs_one_tick initial))) +
  length (gallery (app (run two_jobs_one_tick initial))) =
  length (submitted two_jobs_one_tick).
Proof.
  refine (proj2 (proj2 (jobs_are_conserved two_jobs_one_tick
                          two_jobs_one_tick_admissible) _)).
  repeat constructor.
Defined.

(** X20.  A second tick right after a tick does nothing, whatever the
    state: either the first tick started a job and raised the busy flag, or
    it found nothing to start and the second finds the same.  The interval
    firing again before anything else happens cannot start a second job. *)
Theorem tick_twice (s : System) :
  exec ETick (exec ETick s) = exec ETick s.
Proof.
  assert (∀ s', (processQueue_start (app s')) = (app s', None) →
                exec ETick s' = s') as Hnoop.
  { intros s' H. simpl. rewrite H, app_nil_r. by destruct s'. }
  destruct (processQueue_start_cases (app s))
    as [Hnone|(job & pre & post & _ & _ & _ & _ & Hstart)].
  - by rewrite !(Hnoop s Hnone).
  - apply Hnoop. simpl. rewrite Hstart. simpl.
    by rewrite processQueue_start_busy.
Qed.

(** X21.  What each handler leaves alone.  The staged images change only
    by a submission, a finished upload or a removal; the gallery only by
    the load, a settled provider call or an upscale; the selected image
    only by a selection, a close or an upscale; the busy flag only by a
    tick or a settled provider call; the queue only by a submission, a
    tick or a settled provider call. *)
Theorem handlers_frame (e : event) (s : System) :
  (match e with
   | EAddToQueue _ _ _ | EUploadDone _ | ERemoveImage _ => True
   | _ => referenceImages (app (exec e s)) = referenceImages (app s)
   end) ∧
  (match e with
   | ELoadGallery _ | ESettle _ _ _ | EUpscale _ _ => True
   | _ => gallery (app (exec e s)) = gallery (app s)
   end) ∧
  (match e with
   | ESelectImage _ | ECloseModal | EUpscale _ _ => True
   | _ => selectedImage (app (exec e s)) = selectedImage (app s)
   end) ∧
  (match e with
   | ETick | ESettle _ _ _ => True
   | _ => isProcessingRef (app (exec e s)) = isProcessingRef (app s)
   end) ∧
  (match e with
   | EAddToQueue _ _ _ | ETick | ESettle _ _ _ => True
   | _ => queue (app (exec e s)) = queue (app s)
   end).
Proof.
  destruct e as [saved|p ar u| |k outcome uuid|itemId newSrc|item| |fs|k|index];
    simpl; split_and!; try done.
  all: try (destruct (processQueue_start_cases (app s))
              as [->|(job & pre & post & _ & _ & _ & _ & ->)]; done).
  all: try (destruct (inflight s !! k) as [job|]; [|done];
            destruct (processQueue_settle_cases job outcome uuid (app s))
              as [(? & ? & _ & _ & ->)|(? & _ & ->)]; done).
  all: by destruct (uploads s !! k).
Qed.

(** ** Upscales compose *)

(** X22.  Two upscales of the same item: the later one wins, and the
    state is as if only it had happened.  Upscales of items with different
    identifiers commute. *)
Theorem upscale_last_write_wins (itemId itemId' a b : string)
    (st : AppState) :
  handleUpscaleImage itemId b (handleUpscaleImage itemId a st) =
    handleUpscaleImage itemId b st ∧
  (itemId ≠ itemId' →
   handleUpscaleImage itemId a (handleUpscaleImage itemId' b st) =
   handleUpscaleImage itemId' b (handleUpscaleImage itemId a st)).
Proof.
  destruct st as [refs q g sel busy].
  unfold handleUpscaleImage, setSelectedImage, setGallery. simpl. split.
  - f_equal.
    + rewrite <- list_fmap_compose. apply list_fmap_ext.
      intros _ item _. simpl.
      destruct (decide (GalleryItem.id item = itemId)); simpl;
        [by rewrite decide_True|by rewrite decide_False].
    + destruct sel as [sel|]; [|done].
      destruct (decide (GalleryItem.id sel = itemId)) as [Heq|Hne]; simpl.
      * by rewrite decide_True.
      * by rewrite decide_False.
  - intros Hne. f_equal.
    + rewrite <- !list_fmap_compose. apply list_fmap_ext.
      intros _ item _. simpl.
      destruct (decide (GalleryItem.id item = itemId')) as [H1|H1],
               (decide (GalleryItem.id item = itemId)) as [H2|H2]; simpl;
        repeat case_decide; congruence.
    + destruct sel as [sel|]; [|done].
      destruct (decide (GalleryItem.id sel = itemId')) as [H1|H1],
               (decide (GalleryItem.id sel = itemId)) as [H2|H2]; simpl;
        repeat case_decide; congruence.
Qed.

Lemma upscale_last_write_wins_witness :
  handleUpscaleImage "item-1" "data:image/png;base64,BBBB"
    (handleUpscaleImage "item-2" "data:image/png;base64,CCCC" initialApp) =
  handleUpscaleImage "item-2" "data:image/png;base64,CCCC"
    (handleUpscaleImage "item-1" "data:image/png;base64,BBBB" initialApp).
Proof.
  apply (proj2 (upscale_last_write_wins "item-1" "item-2"
                  "data:image/png;base64,BBBB" "data:image/png;base64,CCCC"
                  initialApp)).
  discriminate.
Defined.

(** ** A whole call of processQueue *)

Lemma processQueue_job (client : settled Models) (uuid : settled string) (st : AppState)
    (pre post : list Job.t) (job : Job.t) :
  NoDup (Job.id <$> queue st) →
  isProcessingRef st = false →
  queue st = pre ++ job :: post →
  Job.status job = pending →
  Forall (λ j, Job.status j ≠ pending) pre →
  (Job.id job ∉ Job.id <$> pre) ∧ (Job.id job ∉ Job.id <$> post) ∧
  processQueue client uuid st =
    (processQueue_settle job
       (Part_000.generateImage client (Job.prompt job) (Job.aspectRatio job)
          (Job.referenceImages job))
       uuid
       (mkApp (referenceImages st)
          (pre ++ Job.with_status processing job :: post)
          (gallery st) (selectedImage st) true)).2.
Proof.
  intros Hnd Hidle Hq Hst Hpre.
  rewrite Hq in Hnd. destruct (NoDup_ids_split _ _ _ Hnd) as [Hnpre Hnpost].
  split_and!; [done..|].
  assert ((processQueue_start st).2 = Some job) as Hjob.
  { rewrite processQueue_start_idle by done.
    apply nextPending_Some. by exists pre, post. }
  unfold processQueue.
  destruct (processQueue_start_cases st)
    as [Hnone|(job' & pre' & post' & _ & _ & _ & _ & Hstart)].
  { by rewrite Hnone in Hjob. }
  rewrite Hstart in Hjob |- *. simpl in Hjob. injection Hjob as ->.
  unfold setQueue, setIsProcessing. simpl.
  by rewrite Hq, markProcessing_byId, byId_at.
Qed.

(** X23.  A call of [processQueue] that runs to its end while nothing else
    happens: it does nothing if the busy flag is up; it leaves the flag,
    the staged images and the selected image as it found them; and if job
    identifiers are unique it leaves no job processing when none was, and
    the number of queued jobs plus gallery items is unchanged: a job
    leaves the queue only by entering the gallery. *)
Theorem processQueue_whole_call (client : settled Models) (uuid : settled string)
    (st : AppState) :
  (isProcessingRef st = true → processQueue client uuid st = st) ∧
  isProcessingRef (processQueue client uuid st) = isProcessingRef st ∧
  referenceImages (processQueue client uuid st) = referenceImages st ∧
  selectedImage (processQueue client uuid st) = selectedImage st ∧
  (NoDup (Job.id <$> queue st) → Forall notProcessing (queue st) →
   Forall notProcessing (queue (processQueue client uuid st)) ∧
   length (queue (processQueue client uuid st)) +
     length (gallery (processQueue client uuid st)) =
   length (queue st) + length (gallery st)).
Proof.
  assert (isProcessingRef st = true → processQueue client uuid st = st) as Hbusy.
  { intros H. unfold processQueue. by rewrite processQueue_start_busy. }
  destruct (processQueue_start_cases st)
    as [Hnone|(job & pre & post & Hidle & Hq & Hst & Hpre & Hstart)].
  { unfold processQueue. rewrite Hnone. by split_and!. }
  split; [exact Hbusy|].
  assert (processQueue client uuid st =
          (processQueue_settle job
             (Part_000.generateImage client (Job.prompt job) (Job.aspectRatio job)
                (Job.referenceImages job)) uuid
             (setQueue (markProcessing (Job.id job))
                (setIsProcessing true st))).2) as ->.
  { unfold processQueue. by rewrite Hstart. }
  set (outcome := Part_000.generateImage _ _ _ _).
  split_and!.
  - rewrite Hidle.
    by destruct (processQueue_settle_cases job outcome uuid
                   (setQueue (markProcessing (Job.id job))
                      (setIsProcessing true st)))
      as [(? & ? & _ & _ & ->)|(? & _ & ->)].
  - by destruct (processQueue_settle_cases job outcome uuid
                   (setQueue (markProcessing (Job.id job))
                      (setIsProcessing true st)))
      as [(? & ? & _ & _ & ->)|(? & _ & ->)].
  - by destruct (processQueue_settle_cases job outcome uuid
                   (setQueue (markProcessing (Job.id job))
                      (setIsProcessing true st)))
      as [(? & ? & _ & _ & ->)|(? & _ & ->)].
  - intros Hnd Hall. rewrite Hq in Hnd, Hall.
    destruct (NoDup_ids_split _ _ _ Hnd) as [Hnpre Hnpost].
    apply Forall_app in Hall as [Hall1 Hall2].
    apply Forall_cons in Hall2 as [_ Hall2].
    assert (markProcessing (Job.id job) (queue st) =
            pre ++ Job.with_status processing job :: post) as Hmark.
    { by rewrite Hq, markProcessing_byId, byId_at. }
    pose proof (markCompleted_at pre post (Job.with_status processing job)
                  Hnpre Hnpost) as Hdone. simpl in Hdone.
    destruct (processQueue_settle_cases job outcome uuid
                (setQueue (markProcessing (Job.id job))
                   (setIsProcessing true st)))
      as [(? & ? & _ & _ & ->)|(? & _ & ->)]; simpl; rewrite Hmark.
    + rewrite Hdone. split; [apply Forall_app; by split|].
      rewrite Hq, !length_app. simpl. lia.
    + rewrite markFailed_byId, byId_at by done.
      split; [apply Forall_app; split; [done|by apply Forall_cons]|].
      rewrite Hq, !length_app. simpl. lia.
Qed.

Lemma processQueue_whole_call_witness :
  processQueue (Fulfilled (pngProvider "iVBORw0KGgo=")) (Fulfilled "item-1")
    (mkApp [] [Job.mk "job-1" "A red balloon" [] AR_1_1 processing None]
       [] None true) =
  mkApp [] [Job.mk "job-1" "A red balloon" [] AR_1_1 processing None]
    [] None true.
Proof.
  apply (proj1 (processQueue_whole_call
                  (Fulfilled (pngProvider "iVBORw0KGgo="))
                  (Fulfilled "item-1")
                  (mkApp [] [Job.mk "job-1" "A red balloon" [] AR_1_1
                               processing None] [] None true))).
  reflexivity.
Defined.

(** X24.  Three complete calls, for the first pending job [job] of a
    queue with unique identifiers and the busy flag down.  If constructing
    the client throws, the job ends failed in its place with the message of
    the error thrown (or ['Unknown error'] if the value is no error) and
    the gallery is unchanged.  If the client is constructed and the first
    reference image of [job] is no data URL, the job ends failed with the
    error ['Invalid base64 string format'] in its place and the gallery is
    unchanged.  If the client is constructed, [job] has no reference image
    and the text-to-image model returns non-empty bytes, the job leaves the
    queue and the gallery gets at its front an item with the new
    identifier, the PNG data URL of the bytes and the prompt of the job. *)
Theorem processQueue_end_to_end (client : settled Models)
    (uuid : settled string) (st : AppState) (pre post : list Job.t)
    (job : Job.t) :
  NoDup (Job.id <$> queue st) →
  isProcessingRef st = false →
  queue st = pre ++ job :: post →
  Job.status job = pending →
  Forall (λ j, Job.status j ≠ pending) pre →
  (∀ e,
     client = Rejected e →
     queue (processQueue client uuid st) =
       pre ++ Job.mk (Job.id job) (Job.prompt job) (Job.referenceImages job)
                (Job.aspectRatio job) failed (Some (errorMessageOf e))
           :: post ∧
     gallery (processQueue client uuid st) = gallery st) ∧
  (∀ ai first others,
     client = Fulfilled ai →
     Job.referenceImages job = first :: others →
     matchDataUrl first = None →
     queue (processQueue client uuid st) =
       pre ++ Job.mk (Job.id job) (Job.prompt job) (Job.referenceImages job)
                (Job.aspectRatio job) failed
                (Some "Invalid base64 string format") :: post ∧
     gallery (processQueue client uuid st) = gallery st) ∧
  (∀ ai bytes newId,
     client = Fulfilled ai →
     Job.referenceImages job = [] →
     generateImages ai
       (mkImagesRequest "imagen-4.0-generate-001" (Job.prompt job) 1
          "image/png" (Job.aspectRatio job)) =
       Fulfilled (mkImagesResponse (Some bytes)) →
     bytes ≠ EmptyString →
     uuid = Fulfilled newId →
     queue (processQueue client uuid st) = pre ++ post ∧
     gallery (processQueue client uuid st) =
       GalleryItem.mk newId ("data:image/png;base64," +:+ bytes)
         (Job.prompt job) :: gallery st).
Proof.
  intros Hnd Hidle Hq Hst Hpre.
  destruct (processQueue_job client uuid st pre post job Hnd Hidle Hq Hst Hpre)
    as (Hnpre & Hnpost & ->).
  split_and!.
  - intros e ->. simpl. by rewrite markFailed_byId, byId_at.
  - intros ai first others -> Hrefs Hbad.
    rewrite Hrefs, (generateImage_invalid_first ai (Job.prompt job)
                      (Job.aspectRatio job) first others Hbad).
    simpl. rewrite markFailed_byId, byId_at by done. by rewrite <- Hrefs.
  - intros ai bytes newId -> Hrefs Hcall Hbytes ->.
    rewrite Hrefs, generateImage_000_constructed. unfold textToImage. simpl.
    rewrite Hcall. simpl. unfold imageOfImages. simpl.
    destruct bytes as [|c bytes]; [done|]. simpl.
    pose proof (markCompleted_at pre post (Job.with_status processing job)
                  Hnpre Hnpost) as Hdone.
    simpl in Hdone. by rewrite Hdone.
Qed.

Lemma processQueue_end_to_end_witness :
  queue (processQueue (Fulfilled (pngProvider "iVBORw0KGgo="))
           (Fulfilled "item-1")
           (mkApp []
              [Job.mk "job-1" "A red balloon" [] AR_1_1 pending None;
               Job.mk "job-2" "A blue kite" [] AR_16_9 pending None]
              [] None false)) =
    [] ++ [Job.mk "job-2" "A blue kite" [] AR_16_9 pending None] ∧
  gallery (processQueue (Fulfilled (pngProvider "iVBORw0KGgo="))
             (Fulfilled "item-1")
             (mkApp []
                [Job.mk "job-1" "A red balloon" [] AR_1_1 pending None;
                 Job.mk "job-2" "A blue kite" [] AR_16_9 pending None]
                [] None false)) =
    [GalleryItem.mk "item-1" ("data:image/png;base64," +:+ "iVBORw0KGgo=")
       "A red balloon"].
Proof.
  refine (proj2 (proj2 (processQueue_end_to_end
            (Fulfilled (pngProvider "iVBORw0KGgo="))
            (Fulfilled "item-1")
            (mkApp []
               [Job.mk "job-1" "A red balloon" [] AR_1_1 pending None;
                Job.mk "job-2" "A blue kite" [] AR_16_9 pending None]
               [] None false)
            [] [Job.mk "job-2" "A blue kite" [] AR_16_9 pending None]
            (Job.mk "job-1" "A red balloon" [] AR_1_1 pending None)
            _ eq_refl eq_refl eq_refl _))
            (pngProvider "iVBORw0KGgo=") "iVBORw0KGgo=" "item-1"
            eq_refl eq_refl eq_refl _ eq_refl).
  - by apply (bool_decide_unpack _).
  - constructor.
  - discriminate.
Defined.
